(** * fintech-map: province geometry of [SpainMap.tsx]

    A shallow embedding of the geometry code of
    [src/components/SpainMap.tsx]: name resolution, the archipelago split,
    the name-to-centroid map, the avatar marker layout and the style of the
    province layers, with the click handler of [src/routes/index.tsx].

    Numbers.  A JavaScript number is an IEEE 754 binary64 value: the type
    [spec_float] of the Standard Library, with its correctly rounded
    operations at precision 53 and maximal exponent 1024.  A decimal literal
    of the source is the double nearest to it, [double 39.6].  [Math.cos] and
    [Math.sin] are left to the engine by the language, which only asks for
    an approximation: they are parameters.

    Containers.  Property bags and the own keys of the static anchor table
    are [gmap string _]; looking a name up in the table also finds what the
    table inherits from [Object.prototype].  A [Map] that the code iterates
    ([profilesByProvince]) keeps its insertion order: an association list
    with replace-in-place [Map.set].  A value the code may find [undefined]
    or [null] is an [option]; a [TypeError] is the result [None] of
    [splitIslandFeature]. *)

From Stdlib Require Import ZArith QArith Floats Lia Ascii.
From stdpp Require Import gmap strings list.

#[local] Set Warnings "-inexact-float".

(** ** Numbers *)

Abbreviation number := spec_float.

(** The double a decimal literal of the source denotes. *)
Definition double (x : float) : number := Prim2SF x.

Arguments double : simpl never.

Declare Scope number_scope.
Delimit Scope number_scope with num.

Notation "x + y" := (SFadd prec emax x y) : number_scope.
Notation "x - y" := (SFsub prec emax x y) : number_scope.
Notation "x * y" := (SFmul prec emax x y) : number_scope.
Notation "x / y" := (SFdiv prec emax x y) : number_scope.
Notation "x <? y" := (SFltb x y) : number_scope.
Notation "x >? y" := (SFltb y x) : number_scope.
Notation "x <=? y" := (SFleb x y) : number_scope.
Notation "x =? y" := (SFeqb x y) : number_scope.

(** [+0], and [Number.POSITIVE_INFINITY]. *)
Definition zero : number := S754_zero false.
Definition POSITIVE_INFINITY : number := S754_infinity false.

(** The number of an array length or index: the integer, rounded to the
    format (exact below [2 ^ 53]). *)
Definition ofNat (n : nat) : number :=
  binary_normalize prec emax (Z.of_nat n) 0 false.

Definition Math_PI : number := double 3.141592653589793.

Definition Math_abs (x : number) : number := SFabs x.

(** [Math.min] and [Math.max]: [NaN] when an argument is [NaN]; of the two
    zeros [-0] is the smaller. *)
Definition Math_min (x y : number) : number :=
  match SFcompare x y with
  | None => S754_nan
  | Some Lt => x
  | Some Gt => y
  | Some Eq => match x with S754_zero true => x | _ => y end
  end.

Definition Math_max (x y : number) : number :=
  match SFcompare x y with
  | None => S754_nan
  | Some Lt => y
  | Some Gt => x
  | Some Eq => match x with S754_zero false => x | _ => y end
  end.

(** ** Data model *)

(** The values a GeoJSON property can hold, as far as the code looks:
    [typeof value === "string"] or not. *)
Inductive JSValue : Type :=
  | JString (s : string)
  | JNumber (x : number)
  | JBool (b : bool)
  | JNull.

Abbreviation Properties := (gmap string JSValue).

(** [number[]], [number[][]], [number[][][]]: a position is [lng, lat]. *)
Abbreviation Position := (list number).
Abbreviation Ring := (list (list number)).
Abbreviation PolygonCoords := (list (list (list number))).

(** The two geometries the regions of the dataset have; the split tells
    them apart by [geometry.type]. *)
Inductive Geometry : Type :=
  | Polygon (coordinates : PolygonCoords)
  | MultiPolygon (coordinates : list PolygonCoords).

(** [Feature<Geometry>]; [properties] may be [null]. *)
Record Feature : Type := mkFeature {
  properties : option Properties;
  geometry : Geometry;
}.

Record FeatureCollection : Type := mkCollection {
  features : list Feature;
}.

Record IslandAnchor : Type := mkAnchor {
  name : string;
  lat : number;
  lng : number;
}.

(** A [[lat, lng]] pair. *)
Abbreviation LatLng := (number * number)%type.

(** JavaScript's [a ?? b]. *)
Definition nullish {A : Type} (a : option A) (b : A) : A :=
  match a with
  | Some v => v
  | None => b
  end.

Notation "a ?? b" := (nullish a b) (at level 60, right associativity).

(** ** Name resolution *)

Definition getStringProperty (feature : Feature) (key : string) : option string :=
  match properties feature with
  | None => None
  | Some props =>
      match props !! key with
      | Some (JString value) => Some value
      | _ => None
      end
  end.

Definition getRawProvinceName (feature : Feature) : string :=
  getStringProperty feature "name" ??
  getStringProperty feature "NAME" ??
  getStringProperty feature "provincia" ??
  "Desconocida".

Definition getProvinceName (feature : Feature) : string :=
  getStringProperty feature "mapProvinceName" ?? getRawProvinceName feature.

Definition getFeatureLabel (feature : Feature) : string :=
  getStringProperty feature "mapDisplayName" ?? getRawProvinceName feature.

(** The keys [getRawProvinceName] tries, in its order. *)
Definition candidateKeys : list string := ["name"; "NAME"; "provincia"].

(** ** The anchor table *)

Definition balearicAnchors : list IslandAnchor := [
  mkAnchor "Mallorca" (double 39.6) (double 2.9);
  mkAnchor "Menorca" (double 39.95) (double 4.1);
  mkAnchor "Ibiza" (double 38.98) (double 1.43);
  mkAnchor "Formentera" (double 38.7) (double 1.45) ].

Definition lasPalmasAnchors : list IslandAnchor := [
  mkAnchor "Lanzarote" (double 29.03) (double (-13.63));
  mkAnchor "Fuerteventura" (double 28.36) (double (-14.05));
  mkAnchor "Gran Canaria" (double 27.95) (double (-15.6)) ].

Definition tenerifeAnchors : list IslandAnchor := [
  mkAnchor "Tenerife" (double 28.29) (double (-16.62));
  mkAnchor "La Palma" (double 28.69) (double (-17.86));
  mkAnchor "La Gomera" (double 28.11) (double (-17.23));
  mkAnchor "El Hierro" (double 27.73) (double (-18.03)) ].

(** The own properties of the object literal. *)
Definition ISLAND_SPLIT_ANCHORS : gmap string (list IslandAnchor) :=
  <["Illes Balears" := balearicAnchors]>
  (<["Las Palmas" := lasPalmasAnchors]>
  (<["Santa Cruz De Tenerife" := tenerifeAnchors]> ∅)).

(** The table is an object literal, so its prototype is [Object.prototype]
    and a property read that finds no own key goes on there.  These are the
    names [Object.prototype] answers: eleven methods and the accessor
    [__proto__], whose value is [Object.prototype] itself. *)
Definition objectPrototypeKeys : list string := [
  "constructor"; "hasOwnProperty"; "isPrototypeOf"; "propertyIsEnumerable";
  "toLocaleString"; "toString"; "valueOf";
  "__defineGetter__"; "__defineSetter__"; "__lookupGetter__";
  "__lookupSetter__"; "__proto__" ].

(** What [ISLAND_SPLIT_ANCHORS[provinceName]] evaluates to, when it is not
    [undefined]: an anchor list of the table, or a member of
    [Object.prototype], which is truthy and is not an array. *)
Inductive TableValue : Type :=
  | AnchorList (anchors : list IslandAnchor)
  | PrototypeMember.

(** [ISLAND_SPLIT_ANCHORS[provinceName]]; [None] is [undefined]. *)
Definition lookupAnchors (provinceName : string) : option TableValue :=
  match ISLAND_SPLIT_ANCHORS !! provinceName with
  | Some anchors => Some (AnchorList anchors)
  | None =>
      if decide (provinceName ∈ objectPrototypeKeys)
      then Some PrototypeMember else None
  end.

(** ** Nearest anchor and piece centroid *)

Definition sqDistance (anchor : IslandAnchor) (lat0 lng0 : number) : number :=
  let latDiff := (lat anchor - lat0)%num in
  let lngDiff := (lng anchor - lng0)%num in
  (latDiff * latDiff + lngDiff * lngDiff)%num.

(** The [for (const anchor of anchors)] loop on the pair
    [(best, bestDistance)]. *)
Fixpoint nearestLoop (lat0 lng0 : number) (anchors : list IslandAnchor)
    (best : option IslandAnchor) (bestDistance : number)
    : option IslandAnchor :=
  match anchors with
  | [] => best
  | anchor :: rest =>
      let distance := sqDistance anchor lat0 lng0 in
      if (distance <? bestDistance)%num
      then nearestLoop lat0 lng0 rest (Some anchor) distance
      else nearestLoop lat0 lng0 rest best bestDistance
  end.

(** [None] is [undefined]: [anchors[0]] of an empty list. *)
Definition nearestAnchor (lat0 lng0 : number) (anchors : list IslandAnchor)
    : option IslandAnchor :=
  nearestLoop lat0 lng0 anchors (head anchors) POSITIVE_INFINITY.

(** [coord[i] ?? 0]. *)
Definition coordAt (coord : Position) (i : nat) : number :=
  (coord !! i) ?? zero.

Definition lngSumOf (ring : Ring) : number :=
  fold_left (fun acc coord => (acc + coordAt coord 0)%num) ring zero.

Definition latSumOf (ring : Ring) : number :=
  fold_left (fun acc coord => (acc + coordAt coord 1)%num) ring zero.

(** [ring.length], as the number the divisions take. *)
Definition ringLength (ring : Ring) : number := ofNat (length ring).

Definition polygonCentroid (polygon : PolygonCoords) : LatLng :=
  let ring := (polygon !! 0%nat) ?? [] in
  if Nat.eqb (length ring) 0 then (zero, zero)
  else ((latSumOf ring / ringLength ring)%num,
        (lngSumOf ring / ringLength ring)%num).

(** The same computation with the two divisions checked: [None] when a
    divisor is zero. *)
Definition checkedDiv (x y : number) : option number :=
  if (y =? zero)%num then None else Some (x / y)%num.

Definition polygonCentroidChecked (polygon : PolygonCoords) : option LatLng :=
  let ring := (polygon !! 0%nat) ?? [] in
  if Nat.eqb (length ring) 0 then Some (zero, zero)
  else
    match checkedDiv (latSumOf ring) (ringLength ring),
          checkedDiv (lngSumOf ring) (ringLength ring) with
    | Some la, Some lo => Some (la, lo)
    | _, _ => None
    end.

(** ** The archipelago split *)

(** [anchors.forEach((anchor) => groups.set(anchor.name, []))]. *)
Definition initGroups (anchors : list IslandAnchor)
    : gmap string (list PolygonCoords) :=
  foldl (fun groups anchor => <[name anchor := []]> groups) ∅ anchors.

(** [groups.get(key)?.push(polygon)]. *)
Definition pushGroup (key : string) (polygon : PolygonCoords)
    (groups : gmap string (list PolygonCoords))
    : gmap string (list PolygonCoords) :=
  match groups !! key with
  | Some coordinates => <[key := coordinates ++ [polygon]]> groups
  | None => groups
  end.

(** The loop over the pieces.  [anchor.name] of an [undefined] anchor is a
    [TypeError]: [None]. *)
Fixpoint assignPieces (anchors : list IslandAnchor)
    (polygons : list PolygonCoords)
    (groups : gmap string (list PolygonCoords))
    : option (gmap string (list PolygonCoords)) :=
  match polygons with
  | [] => Some groups
  | polygon :: rest =>
      let '(lat0, lng0) := polygonCentroid polygon in
      match nearestAnchor lat0 lng0 anchors with
      | None => None
      | Some anchor =>
          assignPieces anchors rest (pushGroup (name anchor) polygon groups)
      end
  end.

(** The object pushed for one anchor: the feature's properties with the two
    bookkeeping keys set, and the anchor's pieces. *)
Definition subFeature (feature : Feature) (provinceName : string)
    (anchor : IslandAnchor) (coordinates : list PolygonCoords) : Feature :=
  {| properties :=
       Some (<["mapDisplayName" := JString (name anchor)]>
              (<["mapProvinceName" := JString provinceName]>
                (properties feature ?? ∅)));
     geometry := MultiPolygon coordinates |}.

(** The loop that fills [splitFeatures]. *)
Fixpoint emitSplit (feature : Feature) (provinceName : string)
    (anchors : list IslandAnchor)
    (groups : gmap string (list PolygonCoords)) : list Feature :=
  match anchors with
  | [] => []
  | anchor :: rest =>
      match groups !! name anchor with
      | None | Some [] => emitSplit feature provinceName rest groups
      | Some coordinates =>
          subFeature feature provinceName anchor coordinates
            :: emitSplit feature provinceName rest groups
      end
  end.

(** [None] is the [TypeError] of [anchors.forEach] when [anchors] is a
    member of [Object.prototype]: truthy, so the guard lets it through, and
    without a [forEach]. *)
Definition splitIslandFeature (feature : Feature) : option (list Feature) :=
  let provinceName := getRawProvinceName feature in
  match lookupAnchors provinceName, geometry feature with
  | Some (AnchorList anchors), MultiPolygon coordinates =>
      match assignPieces anchors coordinates (initGroups anchors) with
      | None => None
      | Some groups =>
          let splitFeatures := emitSplit feature provinceName anchors groups in
          Some (if Nat.ltb 0 (length splitFeatures)
                then splitFeatures else [feature])
      end
  | Some PrototypeMember, MultiPolygon _ => None
  | _, _ => Some [feature]
  end.

(** [data.features.flatMap(splitIslandFeature)]. *)
Definition splitArchipelagos (data : FeatureCollection)
    : option FeatureCollection :=
  match mapM splitIslandFeature (features data) with
  | None => None
  | Some parts => Some {| features := concat parts |}
  end.

(** The polygon pieces of a geometry, and how many vertices they hold. *)
Definition pieces (g : Geometry) : list PolygonCoords :=
  match g with
  | Polygon coordinates => [coordinates]
  | MultiPolygon coordinates => coordinates
  end.

Definition pieceVertices (polygon : PolygonCoords) : nat :=
  sum_list (length <$> polygon).

(** The pieces and the vertices of a list of regions. *)
Definition allPieces (fs : list Feature) : list PolygonCoords :=
  concat ((fun f => pieces (geometry f)) <$> fs).

Definition vertexCount (fs : list Feature) : nat :=
  sum_list (pieceVertices <$> allPieces fs).

(** A square of side [2 * h] around [(lat0, lng0)], as a one-ring polygon. *)
Definition squareAt (lat0 lng0 h : number) : PolygonCoords :=
  [[ [(lng0 - h)%num; (lat0 - h)%num]; [(lng0 + h)%num; (lat0 - h)%num];
     [(lng0 + h)%num; (lat0 + h)%num]; [(lng0 - h)%num; (lat0 + h)%num] ]].

(** A region whose only property is its [name]. *)
Definition named (n : string) (g : Geometry) : Feature :=
  {| properties := Some {[ "name" := JString n ]}; geometry := g |}.

(** A Balearic multi-polygon: two pieces near Mallorca, one near each of
    Formentera, Menorca and Ibiza. *)
Definition balearicSample : Feature :=
  named "Illes Balears"
    (MultiPolygon [ squareAt (double 39.6) (double 3) (double 0.3);
                    squareAt (double 38.7) (double 1.4) (double 0.05);
                    squareAt (double 40) (double 4) (double 0.2);
                    squareAt (double 39) (double 1.4) (double 0.1);
                    squareAt (double 39.1) (double 2.9) (double 0.01) ]).

(** ** Bounding-box measures *)

(** [L.LatLngBounds]: the south-west and north-east corners. *)
Record LatLngBounds : Type := mkBounds {
  getSouth : number;
  getWest : number;
  getNorth : number;
  getEast : number;
}.

(** Modelled from the spec: [bounds.getCenter()] is Leaflet's, a library
    outside the repository; the spec gives the centre as the midpoint of the
    minimum and maximum latitude and longitude. *)
Definition getCenter (bounds : LatLngBounds) : LatLng :=
  (((getSouth bounds + getNorth bounds) / double 2)%num,
   ((getWest bounds + getEast bounds) / double 2)%num).

(** All the vertices of a region, ring after ring. *)
Definition allVertices (feature : Feature) : list Position :=
  concat (concat (pieces (geometry feature))).

(** The box grown to hold one more vertex; [None] is the box of no vertex. *)
Definition extendBounds (bounds : option LatLngBounds) (coord : Position)
    : option LatLngBounds :=
  let la := coordAt coord 1 in
  let lo := coordAt coord 0 in
  match bounds with
  | None => Some (mkBounds la lo la lo)
  | Some b =>
      Some (mkBounds (Math_min (getSouth b) la) (Math_min (getWest b) lo)
                     (Math_max (getNorth b) la) (Math_max (getEast b) lo))
  end.

(** Modelled from the spec: [L.geoJSON(feature).getBounds()] is Leaflet's, a
    library outside the repository.  The spec gives the box as the minimum
    and maximum latitude and longitude across all vertices of the region; a
    region without any vertex gets the box collapsed on [(0, 0)] here.  The
    functions of the repository below take the bounds function as a
    parameter; this one instantiates it. *)
Definition bboxBounds (feature : Feature) : LatLngBounds :=
  foldl extendBounds None (allVertices feature) ?? mkBounds zero zero zero zero.

Section Measures.

(** [fun feature => L.geoJSON(feature).getBounds()]. *)
Variable getBounds : Feature -> LatLngBounds.

Definition featureCentroid (feature : Feature) : LatLng :=
  let bounds := getBounds feature in
  getCenter bounds.

Definition featureAreaScore (feature : Feature) : number :=
  let bounds := getBounds feature in
  (Math_abs (getNorth bounds - getSouth bounds) *
   Math_abs (getEast bounds - getWest bounds))%num.

(** One turn of the loop of [provinceCentroids] on the map of
    [{ center, score }] entries. *)
Definition centroidStep (map : gmap string (LatLng * number))
    (feature : Feature) : gmap string (LatLng * number) :=
  let provinceName := getProvinceName feature in
  let center := featureCentroid feature in
  let score := featureAreaScore feature in
  match map !! provinceName with
  | None => <[provinceName := (center, score)]> map
  | Some current =>
      if (score >? snd current)%num
      then <[provinceName := (center, score)]> map
      else map
  end.

(** [geoData] is [null] until the collection is fetched. *)
Definition provinceCentroids (geoData : option FeatureCollection)
    : gmap string LatLng :=
  match geoData with
  | None => ∅
  | Some data => fst <$> foldl centroidStep ∅ (features data)
  end.

End Measures.

(** ** Profiles and their markers *)

Record Provincia : Type := mkProvincia {
  nombre : string;
}.

Record ProfileWithProvince : Type := mkProfile {
  id : string;
  full_name : option string;
  avatar_url : option string;
  provincias : option Provincia;
}.

(** A [Map] with string keys in insertion order: [get] finds the entry of a
    key, [set] replaces it where it stands or appends a new one. *)
Fixpoint mapGet {V : Type} (key : string) (m : list (string * V)) : option V :=
  match m with
  | [] => None
  | (k, v) :: rest => if decide (k = key) then Some v else mapGet key rest
  end.

Fixpoint mapSet {V : Type} (key : string) (value : V) (m : list (string * V))
    : list (string * V) :=
  match m with
  | [] => [(key, value)]
  | (k, v) :: rest =>
      if decide (k = key) then (k, value) :: rest
      else (k, v) :: mapSet key value rest
  end.

(** [p.provincias?.nombre]. *)
Definition provNameOf (p : ProfileWithProvince) : option string :=
  match provincias p with
  | Some record => Some (nombre record)
  | None => None
  end.

(** One turn of the loop of [profilesByProvince]; [!provName] holds of
    [undefined] and of the empty string. *)
Definition groupStep (map : list (string * list ProfileWithProvince))
    (p : ProfileWithProvince) : list (string * list ProfileWithProvince) :=
  match provNameOf p with
  | None => map
  | Some provName =>
      if decide (provName = "") then map
      else
        let arr := mapGet provName map ?? [] in
        mapSet provName (arr ++ [p]) map
  end.

Definition profilesByProvince (profiles : list ProfileWithProvince)
    : list (string * list ProfileWithProvince) :=
  foldl groupStep [] profiles.

Definition occupiedProvinces (profiles : list ProfileWithProvince)
    : gset string :=
  list_to_set (fst <$> profilesByProvince profiles).

Record AvatarMarker : Type := mkMarker {
  key : string;
  position : LatLng;
  profile : ProfileWithProvince;
}.

(** [const radius = Math.min(0.15 + count * 0.02, 0.5)]. *)
Definition radius (count : nat) : number :=
  Math_min (double 0.15 + ofNat count * double 0.02)%num (double 0.5).

(** [const angle = (2 * Math.PI * i) / count]. *)
Definition angle (count i : nat) : number :=
  (double 2 * Math_PI * ofNat i / ofNat count)%num.

Section Markers.

(** The engine's [Math.cos] and [Math.sin]. *)
Variables Math_cos Math_sin : number -> number.

(** The position the [forEach] callback computes for the profile at index
    [i] of a group of [count]. *)
Definition markerPosition (center : LatLng) (count i : nat) : LatLng :=
  let lat0 := fst center in
  let lng0 := snd center in
  if Nat.ltb 1 count then
    ((lat0 + Math_cos (angle count i) * radius count)%num,
     (lng0 + Math_sin (angle count i) * radius count)%num)
  else (lat0, lng0).

Definition groupMarkers (center : LatLng)
    (provProfiles : list ProfileWithProvince) : list AvatarMarker :=
  let count := length provProfiles in
  imap (fun i p =>
          {| key := id p; position := markerPosition center count i;
             profile := p |})
       provProfiles.

Definition avatarMarkers
    (byProvince : list (string * list ProfileWithProvince))
    (centroids : gmap string LatLng) : list AvatarMarker :=
  byProvince ≫= fun entry =>
    match centroids !! fst entry with
    | None => []
    | Some center => groupMarkers center (snd entry)
    end.

End Markers.

(** ** Layer styles *)

(** A Leaflet path style object; [HOVER_STYLE] and [SELECTED_STYLE] leave
    [opacity] out. *)
Record PathStyle : Type := mkStyle {
  fillColor : string;
  weight : number;
  opacity : option number;
  color : string;
  fillOpacity : number;
}.

Definition DEFAULT_STYLE : PathStyle :=
  {| fillColor := "#2f3336"; weight := double 1; opacity := Some (double 1);
     color := "#536471"; fillOpacity := double 0.7 |}.

Definition HOVER_STYLE : PathStyle :=
  {| fillColor := "#1d9bf0"; fillOpacity := double 0.45; weight := double 2;
     color := "#1d9bf0"; opacity := None |}.

Definition SELECTED_STYLE : PathStyle :=
  {| fillColor := "#1d9bf0"; fillOpacity := double 0.75; weight := double 2.5;
     color := "#8ecdf7"; opacity := None |}.

Definition OCCUPIED_STYLE : PathStyle :=
  {| fillColor := "#00ba7c"; fillOpacity := double 0.4; weight := double 1;
     opacity := Some (double 1); color := "#00ba7c" |}.

Record HoveredFeature : Type := mkHovered {
  label : string;
  province : string;
}.

(** ** The tooltip and the click *)

(** [hovered ? (profilesByProvince.get(hovered.province) ?? []) : []]. *)
Definition hoveredProfiles (profiles : list ProfileWithProvince)
    (h : option HoveredFeature) : list ProfileWithProvince :=
  match h with
  | Some hv => mapGet (province hv) (profilesByProvince profiles) ?? []
  | None => []
  end.

(** The toasts of [routes/index.tsx], by kind and message. *)
Inductive Toast : Type :=
  | toastError (message : string)
  | toastInfo (message : string).

(** The state [handleProvinceSelect] reads and writes; [session] holds
    the user id when there is a session. *)
Record AppState : Type := mkApp {
  session : option string;
  myProvince : option string;
  pendingProvince : option string;
  confirmOpen : bool;
  toasts : list Toast;
}.

Definition handleProvinceSelect (provinceName : string) (app : AppState)
    : AppState :=
  match session app with
  | None =>
      {| session := session app; myProvince := myProvince app;
         pendingProvince := pendingProvince app;
         confirmOpen := confirmOpen app;
         toasts := toasts app
                   ++ [toastError "Inicia sesión para seleccionar tu provincia"] |}
  | Some _ =>
      if decide (Some provinceName = myProvince app) then
        {| session := session app; myProvince := myProvince app;
           pendingProvince := pendingProvince app;
           confirmOpen := confirmOpen app;
           toasts := toasts app ++ [toastInfo "Ya estás en esta provincia"] |}
      else
        {| session := session app; myProvince := myProvince app;
           pendingProvince := Some provinceName;
           confirmOpen := true;
           toasts := toasts app |}
  end.

(** The [click] handler of a layer: [onProvinceSelect(provinceName)] with
    the resolved name of the layer's region. *)
Definition onClick (geoFeatures : list Feature) (layer : nat) (app : AppState)
    : AppState :=
  match geoFeatures !! layer with
  | Some feature => handleProvinceSelect (getProvinceName feature) app
  | None => app
  end.

(** [setConfirmOpen], which the dialog calls through [onOpenChange]. *)
Definition setConfirmOpen (open : bool) (app : AppState) : AppState :=
  {| session := session app; myProvince := myProvince app;
     pendingProvince := pendingProvince app;
     confirmOpen := open;
     toasts := toasts app |}.

(** ** The layers and their handlers *)

(** A Leaflet layer object.  [<GeoJSON>] is keyed on the selected province,
    the number of occupied provinces and [dialogOpen]: when the key changes
    the component is created anew, with new layers.  A layer is known by the
    generation of its component and the index of its feature in the
    collection. *)
Abbreviation LayerId := (nat * nat)%type.

(** What the handlers read and write: the generation of the layers on the
    map and the style last applied to each of them (layer [i] renders
    feature [i] of the collection), the ref of the previously hovered layer
    and the [hovered] state. *)
Record MapState : Type := mkState {
  generation : nat;
  layerStyle : list PathStyle;
  prevHoveredRef : option (LayerId * string);
  hovered : option HoveredFeature;
}.

Inductive LayerEvent : Type :=
  | mouseover (layer : nat)
  | mouseout (layer : nat)
  | click (layer : nat)
  | openChange (open : bool).

Section Layers.

Variable geoFeatures : list Feature.
Variable selectedProvince : option string.
Variable occupied : gset string.

Definition styleFeature (feature : option Feature) : PathStyle :=
  match feature with
  | None => DEFAULT_STYLE
  | Some f =>
      let provinceName := getProvinceName f in
      if decide (Some provinceName = selectedProvince) then SELECTED_STYLE
      else if decide (provinceName ∈ occupied) then OCCUPIED_STYLE
      else DEFAULT_STYLE
  end.

(** The style the handlers put back on a layer that is not hovered. *)
Definition restStyle (provinceName : string) : PathStyle :=
  if decide (provinceName ∈ occupied) then OCCUPIED_STYLE else DEFAULT_STYLE.

(** [layer.setStyle(style)]: seen on the map when the layer is one of the
    current generation; a layer of a component that is gone shows
    nothing. *)
Definition setStyle (target : LayerId) (style : PathStyle) (st : MapState)
    : list PathStyle :=
  if decide (fst target = generation st)
  then <[snd target := style]> (layerStyle st)
  else layerStyle st.

Definition initialState : MapState :=
  {| generation := 0;
     layerStyle := (fun f => styleFeature (Some f)) <$> geoFeatures;
     prevHoveredRef := None;
     hovered := None |}.

(** The key of [<GeoJSON>] changed: new layers, each in the style of
    [styleFeature]; the ref and the [hovered] state belong to [SpainMap] and
    stay. *)
Definition remount (st : MapState) : MapState :=
  {| generation := S (generation st);
     layerStyle := (fun f => styleFeature (Some f)) <$> geoFeatures;
     prevHoveredRef := prevHoveredRef st;
     hovered := hovered st |}.

(** The handlers [onEachFeature] binds to the layer of index [layer] of the
    current generation. *)
Definition onMouseover (layer : nat) (feature : Feature) (st : MapState)
    : MapState :=
  let provinceName := getProvinceName feature in
  let displayName := getFeatureLabel feature in
  let this : LayerId := (generation st, layer) in
  let styles :=
    match prevHoveredRef st with
    | Some (prevLayer, prevProvince) =>
        if decide (prevLayer ≠ this) then
          if decide (Some prevProvince ≠ selectedProvince)
          then setStyle prevLayer (restStyle prevProvince) st
          else layerStyle st
        else layerStyle st
    | None => layerStyle st
    end in
  {| generation := generation st;
     layerStyle :=
       if decide (Some provinceName ≠ selectedProvince)
       then <[layer := HOVER_STYLE]> styles else styles;
     prevHoveredRef := Some (this, provinceName);
     hovered := Some {| label := displayName; province := provinceName |} |}.

Definition onMouseout (layer : nat) (feature : Feature) (st : MapState)
    : MapState :=
  let provinceName := getProvinceName feature in
  let this : LayerId := (generation st, layer) in
  {| generation := generation st;
     layerStyle :=
       if decide (Some provinceName ≠ selectedProvince)
       then <[layer := restStyle provinceName]> (layerStyle st)
       else layerStyle st;
     prevHoveredRef :=
       match prevHoveredRef st with
       | Some (prevLayer, _) =>
           if decide (prevLayer = this) then None else prevHoveredRef st
       | None => None
       end;
     hovered := None |}.

(** The priority the layers obey: selected, then the layer the ref holds,
    then occupied, then default. *)
Definition layerPriority (layer : nat) (provinceName : string)
    (st : MapState) : PathStyle :=
  if decide (Some provinceName = selectedProvince) then SELECTED_STYLE
  else if decide (fst <$> prevHoveredRef st = Some (generation st, layer))
       then HOVER_STYLE
  else restStyle provinceName.

End Layers.

(** ** The page *)

(** [App] and the [SpainMap] it renders with [selectedProvince = myProvince]
    and [dialogOpen = confirmOpen]. *)
Record PageState : Type := mkPage {
  appState : AppState;
  mapState : MapState;
}.

Section Page.

Variable geoFeatures : list Feature.
Variable occupied : gset string.

(** The render after [App]'s state went from [before] to [after]: of the
    three parts of the key of [<GeoJSON>] the events below change
    [dialogOpen] only. *)
Definition rerender (before after : AppState) (st : MapState) : MapState :=
  if decide (confirmOpen before = confirmOpen after) then st
  else remount geoFeatures (myProvince after) occupied st.

(** An event reaches the handlers of the layer of that index on the map; a
    click calls [onProvinceSelect]; [openChange] is the dialog closing (or
    opening) by itself. *)
Definition handle (pg : PageState) (ev : LayerEvent) : PageState :=
  match ev with
  | mouseover layer =>
      match geoFeatures !! layer with
      | Some feature =>
          {| appState := appState pg;
             mapState := onMouseover (myProvince (appState pg)) occupied layer feature
                      (mapState pg) |}
      | None => pg
      end
  | mouseout layer =>
      match geoFeatures !! layer with
      | Some feature =>
          {| appState := appState pg;
             mapState := onMouseout (myProvince (appState pg)) occupied layer feature
                      (mapState pg) |}
      | None => pg
      end
  | click layer =>
      let after := onClick geoFeatures layer (appState pg) in
      {| appState := after; mapState := rerender (appState pg) after (mapState pg) |}
  | openChange open =>
      let after := setConfirmOpen open (appState pg) in
      {| appState := after; mapState := rerender (appState pg) after (mapState pg) |}
  end.

Definition initialPage (app0 : AppState) : PageState :=
  {| appState := app0;
     mapState := initialState geoFeatures (myProvince app0) occupied |}.

Definition run (app0 : AppState) (events : list LayerEvent) : PageState :=
  foldl handle (initialPage app0) events.

End Page.

(** The resolution as the specification words it: a function of the region
    name, the selected name, the hovered name and the occupancy. *)
Definition specStyle (regionName : string) (selectedName hoveredName : option string)
    (isOccupied : bool) : PathStyle :=
  if decide (Some regionName = selectedName) then SELECTED_STYLE
  else if decide (Some regionName = hoveredName) then HOVER_STYLE
  else if isOccupied then OCCUPIED_STYLE
  else DEFAULT_STYLE.

(** ** Vocabulary of the statements *)

(** The anchor name a piece is assigned to: [nearestAnchor] at the piece's
    centroid. *)
Definition assignedName (anchors : list IslandAnchor) (polygon : PolygonCoords)
    : option string :=
  name <$> nearestAnchor (fst (polygonCentroid polygon))
                         (snd (polygonCentroid polygon)) anchors.

(** The pieces assigned to one anchor, in their order. *)
Definition piecesOf (anchors : list IslandAnchor) (anchor : IslandAnchor)
    (coordinates : list PolygonCoords) : list PolygonCoords :=
  filter (fun polygon => assignedName anchors polygon = Some (name anchor))
         coordinates.

(** The anchors that received at least one piece, in the table's order. *)
Definition anchorsWithPieces (anchors : list IslandAnchor)
    (coordinates : list PolygonCoords) : list IslandAnchor :=
  filter (fun anchor => piecesOf anchors anchor coordinates <> []) anchors.

(** What [splitIslandFeature] returns on an archipelago multi-polygon. *)
Definition splitOutput (feature : Feature) (anchors : list IslandAnchor)
    (coordinates : list PolygonCoords) : list Feature :=
  (fun a => subFeature feature (getRawProvinceName feature) a
              (piecesOf anchors a coordinates))
    <$> anchorsWithPieces anchors coordinates.

(** The regions on which the lookup in the anchor table goes wrong: the raw
    name is a key of [Object.prototype] and the geometry a multi-polygon. *)
Definition inheritedKey (feature : Feature) : Prop :=
  getRawProvinceName feature ∈ objectPrototypeKeys /\
  exists coordinates, geometry feature = MultiPolygon coordinates.


(** The rational a finite double stands for. *)
Definition exact (x : number) : Q :=
  match x with
  | S754_finite s m e => (inject_Z (cond_Zopp s (Z.pos m)) * 2 ^ e)%Q
  | _ => 0%Q
  end.



(** A profile is placed when its province name is non-empty and has a
    centroid. *)
Definition placed (centroids : gmap string LatLng) (p : ProfileWithProvince)
    : bool :=
  match provNameOf p with
  | Some provName =>
      bool_decide (provName <> "") && bool_decide (is_Some (centroids !! provName))
  | None => false
  end.

(** The profiles of the groups that have a centroid, group after group. *)
Definition placedGroups (centroids : gmap string LatLng)
    (byProvince : list (string * list ProfileWithProvince))
    : list ProfileWithProvince :=
  concat ((fun entry =>
             if bool_decide (is_Some (centroids !! fst entry))
             then snd entry else []) <$> byProvince).

(** Stand-ins for the engine's cosine and sine in the examples: the first
    terms of their series. *)
Definition seriesCos (x : number) : number :=
  (double 1 - x * x / double 2)%num.

Definition seriesSin (x : number) : number :=
  (x - x * x * x / double 6)%num.

(** Two rectangles, of bounding-box area 10 and 20. *)
Definition rectangle (south west north east : number) : Geometry :=
  Polygon [[ [west; south]; [east; south]; [east; north]; [west; north] ]].

Definition smallX : Feature :=
  named "X" (rectangle (double 40) (double 0) (double 42) (double 5)).
Definition largeX : Feature :=
  named "X" (rectangle (double 36) (double 1) (double 40) (double 6)).

(** Two regions named ["T"] whose spans differ and whose scores round to
    the same double. *)
Definition tieFirst : Feature :=
  named "T" (rectangle (double 0) (double 0)
               (double 1.0000000000000004) (double 1)).
Definition tieSecond : Feature :=
  named "T" (rectangle (double 0) (double 0)
               (double 1.0000000000000002) (double 1.0000000000000002)).

(** What the handlers maintain: every layer on the map has a style, the ref
    names a layer of this or of an earlier generation with its province, and
    every layer shows the style of its priority. *)
Definition layersResolved (geoFeatures : list Feature)
    (selectedProvince : option string) (occupied : gset string)
    (st : MapState) : Prop :=
  length (layerStyle st) = length geoFeatures /\
  (forall g layer provinceName,
      prevHoveredRef st = Some ((g, layer), provinceName) ->
      g <= generation st /\
      exists f, geoFeatures !! layer = Some f /\
                getProvinceName f = provinceName) /\
  (forall i f,
      geoFeatures !! i = Some f ->
      layerStyle st !! i
      = Some (layerPriority selectedProvince occupied i (getProvinceName f) st)).

(** What a run of the page maintains: the selected province does not
    change, the layers are resolved, and a hovered region is the region of
    the layer the ref holds. *)
Definition pageInvariant (geoFeatures : list Feature) (occupied : gset string)
    (app0 : AppState) (pg : PageState) : Prop :=
  myProvince (appState pg) = myProvince app0 /\
  layersResolved geoFeatures (myProvince app0) occupied (mapState pg) /\
  (forall h, hovered (mapState pg) = Some h ->
     exists layer f,
       prevHoveredRef (mapState pg) = Some (layer, getProvinceName f) /\
       geoFeatures !! snd layer = Some f /\
       h = {| label := getFeatureLabel f; province := getProvinceName f |}).

(** The name under the pointer, as far as the map shows it: the province of
    the layer the ref holds, while that layer is on the map. *)
Definition hoveredName (st : MapState) : option string :=
  match prevHoveredRef st with
  | Some ((g, _), provinceName) =>
      if decide (g = generation st) then Some provinceName else None
  | None => None
  end.

(** Four regions with one name each, and the regions the Balearic sample
    splits into, which share their province name. *)
Definition regionsABCD : list Feature :=
  [ named "A" (rectangle (double 0) (double 0) (double 1) (double 1));
    named "B" (rectangle (double 0) (double 1) (double 1) (double 2));
    named "C" (rectangle (double 0) (double 2) (double 1) (double 3));
    named "D" (rectangle (double 0) (double 3) (double 1) (double 4)) ].

(** One profile living in ["A"] and two in ["C"]. *)
Definition residentsAC : list ProfileWithProvince :=
  [ mkProfile "u1" None None (Some (mkProvincia "C"));
    mkProfile "u2" None None (Some (mkProvincia "A"));
    mkProfile "u3" None None (Some (mkProvincia "C")) ].

Definition balearicRegions : list Feature :=
  default [] (splitIslandFeature balearicSample).

(** A signed-in user who lives in ["A"], and a visitor. *)
Definition userInA : AppState :=
  {| session := Some "u2"; myProvince := Some "A"; pendingProvince := None;
     confirmOpen := false; toasts := [] |}.

Definition visitor : AppState :=
  {| session := None; myProvince := None; pendingProvince := None;
     confirmOpen := false; toasts := [] |}.

(** A multi-polygon region whose name is a key of [Object.prototype], and
    the one-vertex Balearic piece on which two anchors tie. *)
Definition constructorRegion : Feature :=
  named "constructor"
    (MultiPolygon [ squareAt (double 40) (double (-3)) (double 1) ]).


(** ** HTML escaping *)

(** [str.replace(/c/g, replacement)] for a one-character pattern.  A
    string is its sequence of bytes; the five patterns are ASCII, and an
    ASCII byte never lies inside a longer UTF-8 sequence. *)
Fixpoint replaceAll (c : ascii) (replacement : string) (str : string)
    : string :=
  match str with
  | EmptyString => EmptyString
  | String a rest =>
      if Ascii.eqb a c
      then String.append replacement (replaceAll c replacement rest)
      else String a (replaceAll c replacement rest)
  end.

Definition escapeHtml (str : string) : string :=
  replaceAll "'"%char "&#39;"
    (replaceAll "034"%char "&quot;"
      (replaceAll ">"%char "&gt;"
        (replaceAll "<"%char "&lt;"
          (replaceAll "&"%char "&amp;" str)))).

(** The entity of one character, and the characters that have one. *)
Definition escapeChar (a : ascii) : string :=
  if Ascii.eqb a "&"%char then "&amp;"
  else if Ascii.eqb a "<"%char then "&lt;"
  else if Ascii.eqb a ">"%char then "&gt;"
  else if Ascii.eqb a "034"%char then "&quot;"
  else if Ascii.eqb a "'"%char then "&#39;"
  else String a EmptyString.

Fixpoint escapeEach (str : string) : string :=
  match str with
  | EmptyString => EmptyString
  | String a rest => String.append (escapeChar a) (escapeEach rest)
  end.

Definition markupChar (a : ascii) : bool :=
  Ascii.eqb a "<"%char || Ascii.eqb a ">"%char || Ascii.eqb a "034"%char || Ascii.eqb a "'"%char.

Fixpoint existsChar (P : ascii -> bool) (str : string) : bool :=
  match str with
  | EmptyString => false
  | String a rest => P a || existsChar P rest
  end.

(** * Properties *)

#[local] Set Warnings "-clear-no-such-hyp".

(** ** Comparisons of doubles *)

Ltac compare_cases :=
  repeat match goal with
         | H : context [Z.compare ?x ?y] |- _ =>
             destruct (Z.compare_spec x y); subst
         | |- context [Z.compare ?x ?y] =>
             destruct (Z.compare_spec x y); subst
         | H : context [Pos.compare_cont Eq ?x ?y] |- _ =>
             change (Pos.compare_cont Eq x y) with (Pos.compare x y) in H;
             destruct (Pos.compare_spec x y); subst
         | |- context [Pos.compare_cont Eq ?x ?y] =>
             change (Pos.compare_cont Eq x y) with (Pos.compare x y);
             destruct (Pos.compare_spec x y); subst
         end.

(** Nothing is below a number that is not below [+Infinity]. *)
Lemma ltb_infinity (x y : number) :
  (x <? POSITIVE_INFINITY)%num = false -> (x <? y)%num = false.
Proof.
  unfold SFltb, POSITIVE_INFINITY.
  destruct x as [[]|[]| |[] mx ex], y as [[]|[]| |[] my ey]; cbn; done.
Qed.

(** A number that is not below [b] is not below or equal to a number that
    is: the comparison of doubles is transitive where it answers, and a
    [NaN] is below nothing. *)
Lemma ltb_leb_trans (a d b : number) :
  (d <? b)%num = true -> (a <? b)%num = false -> (a <=? d)%num = false.
Proof.
  unfold SFltb, SFleb.
  destruct a as [[]|[]| |[] ma ea], d as [[]|[]| |[] md ed],
           b as [[]|[]| |[] mb eb]; cbn; try done;
    intros H1 H2; compare_cases; cbn in *; try done; try lia.
Qed.

Lemma leb_ltb (a d : number) : (a <=? d)%num = false -> (a <? d)%num = false.
Proof. unfold SFltb, SFleb. by destruct (SFcompare a d) as [[]|]. Qed.

Lemma ltb_irrefl (x : number) : (x <? x)%num = false.
Proof.
  unfold SFltb. destruct x as [[]|[]| |[] m e]; cbn; try done;
    rewrite Z.compare_refl;
    change (Pos.compare_cont Eq m m) with (Pos.compare m m);
    by rewrite Pos.compare_refl.
Qed.

(** ** The number of a length *)

Lemma shr_1_m (r : shr_record) :
  (0 <= shr_m r)%Z -> shr_m (shr_1 r) = (shr_m r / 2)%Z.
Proof.
  destruct r as [m r s]. cbn [shr_m]. intros Hm.
  destruct m as [|[p|p|]|p]; cbn [shr_1 shr_m]; try lia; try reflexivity.
  - apply (Z.div_unique _ 2 _ 1); lia.
  - apply (Z.div_unique _ 2 _ 0); lia.
Qed.

Lemma iter_shr_1_m (k : positive) :
  forall r : shr_record,
    (0 <= shr_m r)%Z ->
    shr_m (SpecFloat.iter_pos shr_1 k r) = (shr_m r / 2 ^ Z.pos k)%Z.
Proof.
  induction k as [k IH|k IH|]; intros r Hr; cbn [SpecFloat.iter_pos].
  - assert (H1 : (0 <= shr_m (shr_1 r))%Z)
      by (rewrite shr_1_m by done; by apply Z.div_pos).
    assert (H2 : (0 <= shr_m (SpecFloat.iter_pos shr_1 k (shr_1 r)))%Z)
      by (rewrite IH by done; apply Z.div_pos; lia).
    rewrite IH, IH, shr_1_m by done.
    rewrite !Z.div_div by lia. f_equal.
    replace (Z.pos k~1)%Z with (1 + Z.pos k + Z.pos k)%Z by lia.
    rewrite !Z.pow_add_r, Z.pow_1_r by lia. ring.
  - assert (H2 : (0 <= shr_m (SpecFloat.iter_pos shr_1 k r))%Z)
      by (rewrite IH by done; apply Z.div_pos; lia).
    rewrite IH, IH by done. rewrite Z.div_div by lia. f_equal.
    replace (Z.pos k~0)%Z with (Z.pos k + Z.pos k)%Z by lia.
    by rewrite Z.pow_add_r by lia.
  - rewrite shr_1_m by done. by rewrite Z.pow_1_r.
Qed.

Lemma digits2_pos_le (p : positive) :
  (2 ^ (Z.pos (digits2_pos p) - 1) <= Z.pos p)%Z.
Proof.
  induction p as [p IH|p IH|]; cbn [digits2_pos]; [| |done].
  - replace (Z.pos (Pos.succ (digits2_pos p)) - 1)%Z
      with (Z.succ (Z.pos (digits2_pos p) - 1))%Z by lia.
    rewrite Z.pow_succ_r by lia. lia.
  - replace (Z.pos (Pos.succ (digits2_pos p)) - 1)%Z
      with (Z.succ (Z.pos (digits2_pos p) - 1))%Z by lia.
    rewrite Z.pow_succ_r by lia. lia.
Qed.

(** Rounding to the format a positive mantissa with an exponent of at
    least [emin] leaves a positive mantissa: only what lies below the least
    subnormal rounds to zero. *)
Lemma shr_fexp_positive (m e : Z) (l : location) :
  (1 <= m)%Z -> (SpecFloat.emin prec emax <= e)%Z ->
  (1 <= shr_m (fst (shr_fexp prec emax m e l)))%Z /\
  (SpecFloat.emin prec emax <= snd (shr_fexp prec emax m e l))%Z.
Proof.
  intros Hm He. unfold shr_fexp, shr.
  destruct m as [|p|p]; [lia| |lia]. cbn [Zdigits2].
  set (n := (fexp prec emax (Z.pos (digits2_pos p) + e) - e)%Z).
  assert (Hn : (n <= Z.pos (digits2_pos p) - 1)%Z).
  { unfold n, fexp, SpecFloat.emin, prec, emax in *. lia. }
  assert (Hrec : shr_m (shr_record_of_loc (Z.pos p) l) = Z.pos p)
    by (by destruct l as [|[]]).
  destruct n as [|k|k] eqn:En; cbn [fst snd]; rewrite ?Hrec; try lia.
  rewrite iter_shr_1_m, Hrec by (rewrite Hrec; lia). split; [|lia].
  apply Z.div_le_lower_bound; [lia|]. rewrite Z.mul_1_r.
  etrans; [|apply digits2_pos_le]. apply Z.pow_le_mono_r; lia.
Qed.

Lemma binary_round_aux_positive (sx : bool) (m e : Z) (l : location) :
  (1 <= m)%Z -> (SpecFloat.emin prec emax <= e)%Z ->
  match binary_round_aux prec emax sx m e l with
  | S754_finite _ _ _ | S754_infinity _ => True
  | _ => False
  end.
Proof.
  intros Hm He. unfold binary_round_aux.
  destruct (shr_fexp_positive m e l Hm He) as [H1 H1'].
  destruct (shr_fexp prec emax m e l) as [mrs' e']. cbn [fst snd] in *.
  set (m1 := round_nearest_even (shr_m mrs') (loc_of_shr_record mrs')).
  assert (Hm1 : (1 <= m1)%Z).
  { unfold m1, round_nearest_even.
    destruct (loc_of_shr_record mrs') as [|[]]; try done; [|lia].
    destruct (Z.even (shr_m mrs')); lia. }
  destruct (shr_fexp_positive m1 e' loc_Exact Hm1 H1') as [H2 _].
  destruct (shr_fexp prec emax m1 e' loc_Exact) as [mrs'' e''].
  cbn [fst] in H2. destruct (shr_m mrs'') as [|q|q]; [lia| |lia].
  by destruct (Z.leb e'' (emax - prec)).
Qed.

(** The number of a positive length is not zero. *)
Lemma ofNat_nonzero (n : nat) : (ofNat (S n) =? zero)%num = false.
Proof.
  assert (H : match ofNat (S n) with
              | S754_finite _ _ _ | S754_infinity _ => True
              | _ => False
              end).
  { unfold ofNat, binary_normalize.
    destruct (Z.of_nat (S n)) as [|p|p] eqn:E; [lia| |lia].
    unfold binary_round.
    destruct (shl_align p 0 (fexp prec emax (Z.pos (digits2_pos p) + 0)))
      as [mz ez] eqn:Es.
    apply binary_round_aux_positive; [lia|].
    unfold shl_align in Es.
    destruct (fexp prec emax (Z.pos (digits2_pos p) + 0) - 0)%Z eqn:Ed;
      injection Es as <- <-; unfold fexp, SpecFloat.emin, prec, emax in *; lia. }
  by destruct (ofNat (S n)) as [|[]| |[]].
Qed.

(** ** Name resolution *)

Lemma getStringProperty_Some (feature : Feature) (k value : string) :
  getStringProperty feature k = Some value <->
  exists props : Properties,
    properties feature = Some props /\ props !! k = Some (JString value).
Proof.
  unfold getStringProperty. split.
  - destruct (properties feature) as [props|]; [|discriminate].
    destruct (props !! k) as [[s| | |]|] eqn:E; try discriminate.
    intros [= ->]. eauto.
  - intros (props & -> & ->). reflexivity.
Qed.

(** C7, as the code has it.  Name resolution is a total function: it tries
    the keys [name], [NAME], [provincia] in this order and returns the first
    one whose value is a string; when none is, it returns the sentinel
    ["Desconocida"]. *)
Theorem getRawProvinceName_first_string (feature : Feature) :
  (exists (i : nat) (k value : string),
      candidateKeys !! i = Some k /\
      getStringProperty feature k = Some value /\
      (forall (j : nat) (k' : string),
          (j < i)%nat -> candidateKeys !! j = Some k' ->
          getStringProperty feature k' = None) /\
      getRawProvinceName feature = value)
  \/ ((forall k : string, k ∈ candidateKeys ->
          getStringProperty feature k = None) /\
      getRawProvinceName feature = "Desconocida").
Proof.
  unfold getRawProvinceName, candidateKeys.
  destruct (getStringProperty feature "name") as [v0|] eqn:E0.
  { left. exists 0%nat, "name", v0. repeat split; try done. intros j k' Hj. lia. }
  destruct (getStringProperty feature "NAME") as [v1|] eqn:E1.
  { left. exists 1%nat, "NAME", v1. repeat split; try done.
    intros [|j] k' Hj Hk; [|lia]. by inversion Hk. }
  destruct (getStringProperty feature "provincia") as [v2|] eqn:E2.
  { left. exists 2%nat, "provincia", v2. repeat split; try done.
    intros [|[|j]] k' Hj Hk; [| |lia]; by inversion Hk. }
  right. split; [|done].
  intros k Hk. repeat (apply elem_of_cons in Hk as [->|Hk]; [done|]).
  by apply elem_of_nil in Hk.
Qed.

Lemma getRawProvinceName_first_string_witness :
  getRawProvinceName
    {| properties := Some (<["name" := JNumber (double 28)]> {[ "NAME" := JString "Madrid" ]});
       geometry := Polygon [] |}
  = "Madrid".
Proof.
  destruct (getRawProvinceName_first_string
              {| properties :=
                   Some (<["name" := JNumber (double 28)]> {[ "NAME" := JString "Madrid" ]});
                 geometry := Polygon [] |})
    as [(i & k & value & _ & _ & _ & Hraw)|[Hnone _]].
  - vm_compute. reflexivity.
  - exfalso. assert (H := Hnone "NAME").
    assert (Hin : "NAME" ∈ candidateKeys) by (unfold candidateKeys; set_solver).
    specialize (H Hin). vm_compute in H. discriminate H.
Defined.

(** C7, as the specification words it, fails: a region without properties resolves
    to ["Desconocida"], not to the literal ["unknown"]. *)
Lemma getRawProvinceName_sentinel_not_unknown :
  (forall k : string, k ∈ candidateKeys ->
      getStringProperty (mkFeature None (Polygon [])) k = None) /\
  getRawProvinceName (mkFeature None (Polygon [])) <> "unknown".
Proof. split; [intros k _; reflexivity | discriminate]. Qed.

(** ** The piece centroid *)

Lemma ringLength_nonzero (ring : Ring) :
  ring <> [] -> (ringLength ring =? zero)%num = false.
Proof.
  intros Hne. destruct ring as [|c ring]; [done|]. apply ofNat_nonzero.
Qed.

(** C9.  The piece centroid is total: with both divisions checked it still
    returns, and returns what the unchecked code returns, so no division by
    zero is reached; a polygon without rings or with an empty first ring
    gives [(0, 0)]. *)
Theorem polygonCentroid_total (polygon : PolygonCoords) :
  polygonCentroidChecked polygon = Some (polygonCentroid polygon) /\
  polygonCentroid [] = (zero, zero) /\
  (forall rest : PolygonCoords, polygonCentroid ([] :: rest) = (zero, zero)).
Proof.
  split; [|split; [reflexivity | intros rest; reflexivity]].
  unfold polygonCentroidChecked, polygonCentroid.
  destruct (polygon !! 0%nat ?? []) as [|c ring] eqn:E; [reflexivity|].
  assert (Hnz : (ringLength (c :: ring) =? zero)%num = false)
    by (by apply ringLength_nonzero).
  cbn [length Nat.eqb]. unfold checkedDiv. rewrite Hnz. reflexivity.
Qed.

(** ** The nearest anchor *)

Section Nearest.

Variables lat0 lng0 : number.

Local Notation "'dist' a" := (sqDistance a lat0 lng0) (at level 10, a at level 9).

(** The loop, started after the anchors [seen], ends on an anchor that no
    anchor is below, and that every anchor before it is neither below nor
    equal to.  Until a distance is below [+Infinity] the first anchor
    stands in. *)
Lemma nearestLoop_first (rest : list IslandAnchor) :
  forall (seen : list IslandAnchor) (best : option IslandAnchor)
         (bestDistance : number),
    (bestDistance = POSITIVE_INFINITY /\ best = head (seen ++ rest) /\
     forall b, b ∈ seen -> (dist b <? POSITIVE_INFINITY)%num = false) \/
    (exists a pre post,
        best = Some a /\ bestDistance = dist a /\
        seen = pre ++ a :: post /\
        (forall b, b ∈ pre -> (dist b <=? dist a)%num = false) /\
        (forall b, b ∈ seen -> (dist b <? dist a)%num = false)) ->
    seen ++ rest <> [] ->
    exists a pre post,
      nearestLoop lat0 lng0 rest best bestDistance = Some a /\
      seen ++ rest = pre ++ a :: post /\
      (forall b, b ∈ pre -> (dist b <=? dist a)%num = false) /\
      (forall b, b ∈ seen ++ rest -> (dist b <? dist a)%num = false).
Proof.
  induction rest as [|anchor rest IH]; intros seen best bd Hinv Hne.
  - rewrite app_nil_r in *. cbn [nearestLoop].
    destruct Hinv as [(-> & -> & Hinf)|(a & pre & post & -> & -> & -> & Hpre & Hall)].
    + destruct seen as [|a0 tl]; [done|].
      exists a0, [], tl. repeat split; try done.
      * intros b Hb. by apply elem_of_nil in Hb.
      * intros b Hb. by apply ltb_infinity, Hinf.
    + by exists a, pre, post.
  - cbn [nearestLoop]. cbv zeta.
    replace (seen ++ anchor :: rest) with ((seen ++ [anchor]) ++ rest) in *
      by (by rewrite <- app_assoc).
    destruct (dist anchor <? bd)%num eqn:Hlt.
    + apply IH; [|by destruct seen]. right.
      exists anchor, seen, []. split; [done|]. split; [done|]. split; [done|].
      assert (Hseen : forall b, b ∈ seen -> (dist b <=? dist anchor)%num = false).
      { intros b Hb.
        destruct Hinv as [(-> & _ & Hinf)|(a & pre & post & -> & -> & -> & Hpre & Hall)].
        - apply (ltb_leb_trans _ _ POSITIVE_INFINITY); [done | by apply Hinf].
        - apply (ltb_leb_trans _ _ (dist a)); [done | by apply Hall]. }
      split; [exact Hseen|].
      intros b [Hb|Hb]%elem_of_app.
      * by apply leb_ltb, Hseen.
      * apply list_elem_of_singleton in Hb as ->. apply ltb_irrefl.
    + apply IH; [|by destruct seen].
      destruct Hinv as [(-> & -> & Hinf)|(a & pre & post & -> & -> & -> & Hpre & Hall)].
      * left. split; [done|]. split; [done|].
        intros b [Hb|Hb]%elem_of_app; [by apply Hinf|].
        by apply list_elem_of_singleton in Hb as ->.
      * right. exists a, pre, (post ++ [anchor]).
        split; [done|]. split; [done|].
        split; [by rewrite <- app_assoc|]. split; [exact Hpre|].
        intros b [Hb|Hb]%elem_of_app; [by apply Hall|].
        by apply list_elem_of_singleton in Hb as ->.
Qed.

Lemma nearestAnchor_first (anchors : list IslandAnchor) :
  anchors <> [] ->
  exists a pre post,
    nearestAnchor lat0 lng0 anchors = Some a /\
    anchors = pre ++ a :: post /\
    (forall b, b ∈ pre -> (dist b <=? dist a)%num = false) /\
    (forall b, b ∈ anchors -> (dist b <? dist a)%num = false).
Proof.
  intros Hne. unfold nearestAnchor.
  apply (nearestLoop_first anchors [] (head anchors) POSITIVE_INFINITY);
    [|done].
  left. split; [done|]. split; [done|]. intros b Hb. by apply elem_of_nil in Hb.
Qed.

Lemma nearestAnchor_spec (anchors : list IslandAnchor) :
  anchors <> [] ->
  exists a,
    nearestAnchor lat0 lng0 anchors = Some a /\ a ∈ anchors /\
    (forall b, b ∈ anchors -> (dist b <? dist a)%num = false).
Proof.
  intros Hne.
  destruct (nearestAnchor_first anchors Hne) as (a & pre & post & Ha & E & _ & Hmin).
  exists a. split; [exact Ha|]. split; [|exact Hmin].
  rewrite E. apply elem_of_app. right. apply list_elem_of_here.
Qed.

End Nearest.

(** ** The anchor table *)

Lemma anchors_lookup (k : string) (anchors : list IslandAnchor) :
  ISLAND_SPLIT_ANCHORS !! k = Some anchors ->
  anchors <> [] /\ NoDup (name <$> anchors).
Proof.
  unfold ISLAND_SPLIT_ANCHORS.
  rewrite !lookup_insert_Some, lookup_empty.
  intros [[_ <-]|[_ [[_ <-]|[_ [[_ <-]|[_ ?]]]]]]; try done;
    (split; [done|]); apply (bool_decide_unpack _); by vm_compute.
Qed.

(** The three outcomes of the lookup, by the name looked up. *)
Lemma lookupAnchors_cases (k : string) :
  (exists anchors,
      ISLAND_SPLIT_ANCHORS !! k = Some anchors /\
      lookupAnchors k = Some (AnchorList anchors)) \/
  (ISLAND_SPLIT_ANCHORS !! k = None /\ k ∈ objectPrototypeKeys /\
   lookupAnchors k = Some PrototypeMember) \/
  (ISLAND_SPLIT_ANCHORS !! k = None /\ (k ∉ objectPrototypeKeys) /\
   lookupAnchors k = None).
Proof.
  unfold lookupAnchors.
  destruct (ISLAND_SPLIT_ANCHORS !! k) as [anchors|]; [left; by eauto|].
  right. case_decide; [left | right]; done.
Qed.

Lemma lookupAnchors_own (k : string) (anchors : list IslandAnchor) :
  lookupAnchors k = Some (AnchorList anchors) <->
  ISLAND_SPLIT_ANCHORS !! k = Some anchors.
Proof.
  unfold lookupAnchors.
  destruct (ISLAND_SPLIT_ANCHORS !! k) as [anchors'|].
  - split; intros [= ->]; done.
  - case_decide; done.
Qed.

(** No key of the table is a key of [Object.prototype]. *)
Lemma lookupAnchors_inherited (k : string) :
  lookupAnchors k = Some PrototypeMember <-> k ∈ objectPrototypeKeys.
Proof.
  unfold lookupAnchors.
  destruct (ISLAND_SPLIT_ANCHORS !! k) as [anchors|] eqn:E.
  - split; [done|]. intros Hk. exfalso. revert E. unfold ISLAND_SPLIT_ANCHORS.
    rewrite !lookup_insert_Some, lookup_empty.
    intros [[<- _]|[_ [[<- _]|[_ [[<- _]|[_ ?]]]]]]; try done;
      revert Hk; apply (bool_decide_unpack _); by vm_compute.
  - case_decide; done.
Qed.

(** ** The groups of the split *)

Lemma initGroups_lookup_from (anchors : list IslandAnchor)
    (groups : gmap string (list PolygonCoords)) (k : string) :
  foldl (fun groups anchor => <[name anchor := []]> groups) groups anchors !! k
  = if decide (k ∈ name <$> anchors) then Some [] else groups !! k.
Proof.
  revert groups. induction anchors as [|a rest IH]; intros groups; cbn.
  - case_decide as H; [by apply elem_of_nil in H | done].
  - rewrite IH. destruct (decide (k ∈ name <$> rest)) as [Hin|Hnin].
    + rewrite decide_True; [done | by apply list_elem_of_further].
    + destruct (decide (k = name a)) as [->|Hne].
      * rewrite decide_True by apply list_elem_of_here.
        apply lookup_insert_eq.
      * rewrite decide_False
          by (intros [?|?]%elem_of_cons; done).
        by apply lookup_insert_ne.
Qed.

Lemma initGroups_lookup (anchors : list IslandAnchor) (a : IslandAnchor) :
  a ∈ anchors -> initGroups anchors !! name a = Some [].
Proof.
  intros Ha. unfold initGroups. rewrite initGroups_lookup_from.
  rewrite decide_True; [done | by apply list_elem_of_fmap_2].
Qed.

Lemma pushGroup_lookup (k' : string) (polygon : PolygonCoords)
    (groups : gmap string (list PolygonCoords)) (k : string) :
  pushGroup k' polygon groups !! k
  = (fun arr => if decide (k' = k) then arr ++ [polygon] else arr)
      <$> groups !! k.
Proof.
  unfold pushGroup. destruct (groups !! k') as [arr|] eqn:E.
  - destruct (decide (k' = k)) as [->|Hne].
    + by rewrite lookup_insert_eq, E.
    + rewrite lookup_insert_ne by done. by destruct (groups !! k).
  - destruct (decide (k' = k)) as [->|Hne].
    + by rewrite E.
    + by destruct (groups !! k).
Qed.

(** With a non-empty anchor list the loop over the pieces never meets an
    [undefined] anchor, and appends to the group of each name the pieces
    assigned to it. *)
Lemma assignPieces_spec (anchors : list IslandAnchor) :
  anchors <> [] ->
  forall (polygons : list PolygonCoords)
         (groups : gmap string (list PolygonCoords)),
  exists groups',
    assignPieces anchors polygons groups = Some groups' /\
    forall k : string,
      groups' !! k
      = (fun arr =>
           arr ++ filter (fun p => assignedName anchors p = Some k) polygons)
          <$> groups !! k.
Proof.
  intros Hne. induction polygons as [|polygon rest IH]; intros groups.
  - exists groups. split; [done|]. intros k.
    destruct (groups !! k); cbn; [by rewrite app_nil_r | done].
  - cbn [assignPieces].
    destruct (polygonCentroid polygon) as [la lo] eqn:Ec.
    destruct (nearestAnchor_spec la lo anchors Hne) as (a & Ha & _ & _).
    rewrite Ha.
    destruct (IH (pushGroup (name a) polygon groups)) as (groups' & Hg & Hl).
    exists groups'. split; [exact Hg|]. intros k.
    rewrite Hl, pushGroup_lookup.
    assert (Hassigned : assignedName anchors polygon = Some (name a))
      by (unfold assignedName; rewrite Ec; cbn; by rewrite Ha).
    destruct (groups !! k) as [arr|]; [|done].
    cbn [fmap option_fmap option_map]. f_equal.
    rewrite filter_cons. destruct (decide (name a = k)) as [<-|Hk].
    + rewrite decide_True by done. by rewrite <- app_assoc.
    + rewrite decide_False; [done|]. rewrite Hassigned. congruence.
Qed.

Lemma emitSplit_spec (feature : Feature) (provinceName : string)
    (anchors : list IslandAnchor) (coordinates : list PolygonCoords)
    (groups : gmap string (list PolygonCoords)) (rest : list IslandAnchor) :
  (forall a, a ∈ rest ->
     groups !! name a = Some (piecesOf anchors a coordinates)) ->
  emitSplit feature provinceName rest groups
  = (fun a => subFeature feature provinceName a (piecesOf anchors a coordinates))
      <$> filter (fun a => piecesOf anchors a coordinates <> []) rest.
Proof.
  induction rest as [|a rest IH]; intros Hg; [done|].
  cbn [emitSplit]. rewrite (Hg a) by apply list_elem_of_here.
  rewrite filter_cons.
  assert (IH' := IH (fun b Hb => Hg b (list_elem_of_further _ _ _ Hb))).
  destruct (piecesOf anchors a coordinates) as [|p ps] eqn:E.
  - rewrite decide_False by (intros H; by apply H). exact IH'.
  - rewrite decide_True by done. rewrite fmap_cons, E. by f_equal.
Qed.

Lemma splitIslandFeature_archipelago (feature : Feature)
    (anchors : list IslandAnchor) (coordinates : list PolygonCoords) :
  ISLAND_SPLIT_ANCHORS !! getRawProvinceName feature = Some anchors ->
  geometry feature = MultiPolygon coordinates ->
  splitIslandFeature feature
  = Some (if Nat.ltb 0 (length (splitOutput feature anchors coordinates))
          then splitOutput feature anchors coordinates else [feature]).
Proof.
  intros Htab Hgeo. unfold splitIslandFeature.
  rewrite (proj2 (lookupAnchors_own _ _) Htab), Hgeo.
  destruct (anchors_lookup _ _ Htab) as [Hne Hnd].
  destruct (assignPieces_spec anchors Hne coordinates (initGroups anchors))
    as (groups & -> & Hl).
  cbv zeta. unfold splitOutput, anchorsWithPieces.
  rewrite <- (emitSplit_spec feature _ anchors coordinates groups anchors); [done|].
  intros a Ha. rewrite Hl, (initGroups_lookup _ _ Ha). done.
Qed.

Lemma splitIslandFeature_other (feature : Feature) :
  lookupAnchors (getRawProvinceName feature) = None \/
  (exists coordinates, geometry feature = Polygon coordinates) ->
  splitIslandFeature feature = Some [feature].
Proof.
  unfold splitIslandFeature. intros [->|[coordinates ->]]; [done|].
  by destruct (lookupAnchors (getRawProvinceName feature)) as [[]|].
Qed.

(** The split throws exactly on the regions whose raw name is a key of
    [Object.prototype] and whose geometry is a multi-polygon. *)
Lemma splitIslandFeature_throws (feature : Feature) :
  splitIslandFeature feature = None <-> inheritedKey feature.
Proof.
  unfold inheritedKey. split.
  - intros Hnone.
    destruct (lookupAnchors_cases (getRawProvinceName feature))
      as [(anchors & Htab & _)|[(_ & Hk & _)|(_ & _ & Hl)]].
    + destruct (geometry feature) as [c|c] eqn:Hgeo.
      * rewrite splitIslandFeature_other in Hnone by eauto. done.
      * by rewrite (splitIslandFeature_archipelago _ _ _ Htab Hgeo) in Hnone.
    + split; [done|]. destruct (geometry feature) as [c|c] eqn:Hgeo; [|by eauto].
      rewrite splitIslandFeature_other in Hnone by eauto. done.
    + rewrite splitIslandFeature_other in Hnone by eauto. done.
  - intros [Hk [c Hgeo]]. unfold splitIslandFeature.
    by rewrite (proj2 (lookupAnchors_inherited _) Hk), Hgeo.
Qed.

(** ** The groups partition the pieces *)

Section Partition.

Context {A : Type}.

Lemma filter_disjoint_app (P Q : A -> Prop)
    `{!forall x, Decision (P x)} `{!forall x, Decision (Q x)} (l : list A) :
  (forall x, P x -> Q x -> False) ->
  filter P l ++ filter Q l ≡ₚ filter (fun x => P x \/ Q x) l.
Proof.
  intros Hdisj. induction l as [|x l IH]; [done|].
  rewrite !filter_cons.
  destruct (decide (P x)) as [HP|HP], (decide (Q x)) as [HQ|HQ].
  - destruct (Hdisj x HP HQ).
  - rewrite decide_True by tauto. cbn. by rewrite IH.
  - rewrite decide_True by tauto.
    rewrite <- Permutation_middle. by rewrite IH.
  - rewrite decide_False by tauto. exact IH.
Qed.

Lemma filter_all (P : A -> Prop) `{!forall x, Decision (P x)} (l : list A) :
  (forall x, x ∈ l -> P x) -> filter P l = l.
Proof.
  induction l as [|x l IH]; intros Hall; [done|].
  rewrite filter_cons_True by (apply Hall, list_elem_of_here).
  f_equal. apply IH. intros y Hy. by apply Hall, list_elem_of_further.
Qed.

Lemma filter_none (P : A -> Prop) `{!forall x, Decision (P x)} (l : list A) :
  (forall x, x ∈ l -> ~ P x) -> filter P l = [].
Proof.
  induction l as [|x l IH]; intros Hnone; [done|].
  rewrite filter_cons_False by (apply Hnone, list_elem_of_here).
  apply IH. intros y Hy. by apply Hnone, list_elem_of_further.
Qed.

(** Grouping by distinct keys loses and repeats nothing. *)
Lemma groups_partition (f : A -> option string) (ks : list string)
    (l : list A) :
  NoDup ks ->
  concat ((fun k => filter (fun x => f x = Some k) l) <$> ks)
  ≡ₚ filter (fun x => f x ∈ Some <$> ks) l.
Proof.
  induction 1 as [|k ks Hk Hnd IH].
  - cbn. symmetry. rewrite filter_none; [done|].
    intros x _ Hx. by apply elem_of_nil in Hx.
  - rewrite fmap_cons. cbn [concat]. rewrite IH.
    rewrite filter_disjoint_app.
    + erewrite list_filter_iff; [done|]. intros x. cbn.
      rewrite elem_of_cons. split; intros [?|?]; auto.
    + intros x Hx Hin. rewrite Hx in Hin.
      apply list_elem_of_fmap in Hin as (k' & [= <-] & Hk'). done.
Qed.

Lemma concat_skip_empty {B : Type} (g : B -> list A) (l : list B) :
  concat (g <$> filter (fun b => g b <> []) l) = concat (g <$> l).
Proof.
  induction l as [|b l IH]; [done|].
  rewrite filter_cons. destruct (decide (g b <> [])) as [Hb|Hb].
  - cbn. by rewrite IH.
  - cbn. rewrite IH. destruct (g b); [done|]. exfalso. by apply Hb.
Qed.

End Partition.

Lemma assignedName_anchor (anchors : list IslandAnchor) (polygon : PolygonCoords) :
  anchors <> [] ->
  exists a, a ∈ anchors /\ assignedName anchors polygon = Some (name a) /\
    nearestAnchor (fst (polygonCentroid polygon))
                  (snd (polygonCentroid polygon)) anchors = Some a.
Proof.
  intros Hne. unfold assignedName.
  destruct (nearestAnchor_spec (fst (polygonCentroid polygon))
              (snd (polygonCentroid polygon)) anchors Hne) as (a & Ha & Hin & _).
  exists a. by rewrite Ha.
Qed.

Lemma piecesOf_partition (anchors : list IslandAnchor)
    (coordinates : list PolygonCoords) :
  anchors <> [] -> NoDup (name <$> anchors) ->
  concat ((fun a => piecesOf anchors a coordinates) <$> anchors) ≡ₚ coordinates.
Proof.
  intros Hne Hnd. unfold piecesOf.
  change (fun a => filter (fun p => assignedName anchors p = Some (name a)) coordinates)
    with ((fun k => filter (fun p => assignedName anchors p = Some k) coordinates) ∘ name).
  rewrite list_fmap_compose, groups_partition by done.
  rewrite filter_all; [done|]. intros p _.
  destruct (assignedName_anchor anchors p Hne) as (a & Ha & -> & _).
  by apply list_elem_of_fmap_2, list_elem_of_fmap_2.
Qed.

Lemma allPieces_splitOutput (feature : Feature) (anchors : list IslandAnchor)
    (coordinates : list PolygonCoords) :
  allPieces (splitOutput feature anchors coordinates)
  = concat ((fun a => piecesOf anchors a coordinates) <$> anchors).
Proof.
  unfold allPieces, splitOutput, anchorsWithPieces.
  rewrite <- list_fmap_compose.
  apply (concat_skip_empty (fun a => piecesOf anchors a coordinates)).
Qed.

(** Every region on which the split does not throw splits into regions
    that hold its pieces. *)
Lemma splitIslandFeature_pieces (feature : Feature) :
  ~ inheritedKey feature ->
  exists out,
    splitIslandFeature feature = Some out /\ out <> [] /\
    allPieces out ≡ₚ pieces (geometry feature).
Proof.
  intros Hok.
  destruct (lookupAnchors_cases (getRawProvinceName feature))
    as [(anchors & Htab & _)|[(_ & Hk & _)|(_ & _ & Hl)]];
    [destruct (geometry feature) as [coordinates|coordinates] eqn:Hgeo| |].
  - exists [feature]. rewrite splitIslandFeature_other by eauto.
    unfold allPieces. cbn. by rewrite Hgeo, app_nil_r.
  - rewrite (splitIslandFeature_archipelago _ _ _ Htab Hgeo).
    destruct (anchors_lookup _ _ Htab) as [Hne Hnd].
    destruct (splitOutput feature anchors coordinates) as [|o out] eqn:E.
    + exists [feature]. split; [done|]. split; [done|].
      unfold allPieces. cbn. rewrite Hgeo, app_nil_r. cbn.
      rewrite <- (piecesOf_partition anchors coordinates Hne Hnd).
      by rewrite <- (allPieces_splitOutput feature), E.
    + exists (o :: out). split; [done|]. split; [done|].
      rewrite <- E, allPieces_splitOutput.
      by apply piecesOf_partition.
  - destruct (geometry feature) as [coordinates|coordinates] eqn:Hgeo.
    + exists [feature]. rewrite splitIslandFeature_other by eauto.
      unfold allPieces. cbn. by rewrite Hgeo, app_nil_r.
    + exfalso. apply Hok. split; [done | by eauto].
  - exists [feature]. rewrite splitIslandFeature_other by eauto.
    unfold allPieces. cbn. by rewrite app_nil_r.
Qed.

Lemma splitIslandFeature_nonempty (feature : Feature) (out : list Feature) :
  splitIslandFeature feature = Some out -> out <> [].
Proof.
  intros Hout.
  destruct (splitIslandFeature_pieces feature) as (out' & Hout' & Hne & _).
  - intros Hk. apply splitIslandFeature_throws in Hk. congruence.
  - congruence.
Qed.

Lemma allPieces_app (fs gs : list Feature) :
  allPieces (fs ++ gs) = allPieces fs ++ allPieces gs.
Proof. unfold allPieces. by rewrite fmap_app, concat_app. Qed.

Lemma splitArchipelagos_throws (data : FeatureCollection) :
  splitArchipelagos data = None <->
  exists feature, feature ∈ features data /\ inheritedKey feature.
Proof.
  unfold splitArchipelagos. destruct data as [fs]. cbn [features].
  assert (H : mapM splitIslandFeature fs = None <->
              exists feature, feature ∈ fs /\ splitIslandFeature feature = None).
  { rewrite eq_None_not_Some, mapM_is_Some. split.
    - intros Hn. apply not_Forall_Exists in Hn; [|apply _].
      apply Exists_exists in Hn as (x & Hx & Hnx).
      exists x. split; [done|]. by apply eq_None_not_Some.
    - intros (x & Hx & Hnone) HF. rewrite Forall_forall in HF.
      specialize (HF x Hx). cbn in HF. rewrite Hnone in HF.
      by destruct HF. }
  destruct (mapM splitIslandFeature fs) as [parts|].
  - split; [done|]. intros (f & Hf & Hk).
    assert (Hnone : Some parts = None); [|done].
    apply H. exists f. split; [done|]. by apply splitIslandFeature_throws.
  - split; [|done]. intros _. destruct (proj1 H eq_refl) as (f & Hf & Hnone).
    exists f. split; [done|]. by apply splitIslandFeature_throws.
Qed.

(** C1.  The claim holds of every collection but those with a
    multi-polygon region whose raw name is a key of [Object.prototype]
    ([constructor], [toString], ...): on such a collection, and on no
    other, the split throws a [TypeError] and returns nothing.  Everywhere
    else it loses no geometry: each input region is replaced by output
    regions that hold exactly its polygon pieces (the same pieces, each
    once), so the pieces of the output are those of the input and the
    output has at least as many vertices as the input. *)
Theorem splitArchipelagos_preserves_geometry :
  splitArchipelagos {| features := [constructorRegion] |} = None /\
  (forall data : FeatureCollection,
      splitArchipelagos data = None <->
      exists feature, feature ∈ features data /\ inheritedKey feature) /\
  (forall data : FeatureCollection,
      (forall feature, feature ∈ features data -> ~ inheritedKey feature) ->
      exists parts : list (list Feature),
        splitArchipelagos data = Some {| features := concat parts |} /\
        Forall2 (fun feature out =>
                   splitIslandFeature feature = Some out /\
                   allPieces out ≡ₚ pieces (geometry feature))
                (features data) parts /\
        allPieces (concat parts) ≡ₚ allPieces (features data) /\
        vertexCount (features data) <= vertexCount (concat parts)).
Proof.
  split; [vm_compute; reflexivity|]. split; [exact splitArchipelagos_throws|].
  intros data Hok.
  unfold splitArchipelagos. destruct data as [fs]. cbn [features] in *.
  assert (Hparts : exists parts,
    Forall2 (fun feature out =>
               splitIslandFeature feature = Some out /\
               allPieces out ≡ₚ pieces (geometry feature)) fs parts).
  { induction fs as [|f fs IH]; [by exists []|].
    destruct IH as [parts IH];
      [intros g Hg; by apply Hok, list_elem_of_further|].
    destruct (splitIslandFeature_pieces f) as (out & Hout & _ & Hperm);
      [apply Hok, list_elem_of_here|].
    exists (out :: parts). by constructor. }
  destruct Hparts as [parts Hparts]. exists parts.
  assert (HmapM : mapM splitIslandFeature fs = Some parts).
  { apply mapM_Some. eapply Forall2_impl; [exact Hparts|]. by intros ? ? [? _]. }
  rewrite HmapM.
  assert (Hperm : allPieces (concat parts) ≡ₚ allPieces fs).
  { clear HmapM Hok. induction Hparts as [|f out fs parts [_ Hf] _ IH]; [done|].
    cbn [concat]. rewrite allPieces_app, IH, Hf.
    unfold allPieces. by rewrite fmap_cons. }
  repeat split; try done.
  unfold vertexCount. by rewrite Hperm.
Qed.

Lemma splitArchipelagos_preserves_geometry_witness :
  exists parts : list (list Feature),
    splitArchipelagos {| features := [balearicSample; smallX] |}
    = Some {| features := concat parts |} /\
    vertexCount [balearicSample; smallX] <= vertexCount (concat parts).
Proof.
  destruct splitArchipelagos_preserves_geometry as (_ & _ & H).
  destruct (H {| features := [balearicSample; smallX] |})
    as (parts & H1 & _ & _ & H4).
  - intros feature Hf [Hk _]. cbn [features] in Hf.
    apply elem_of_cons in Hf as [->|Hf];
      [|apply list_elem_of_singleton in Hf as ->];
      revert Hk; apply (bool_decide_unpack _); vm_compute; exact I.
  - exists parts. split; [exact H1 | exact H4].
Defined.



(** ** The regions of an archipelago *)

Lemma getProvinceName_subFeature (feature : Feature) (provinceName : string)
    (a : IslandAnchor) (coordinates : list PolygonCoords) :
  getProvinceName (subFeature feature provinceName a coordinates) = provinceName.
Proof.
  unfold getProvinceName, getStringProperty, subFeature. cbn [properties].
  rewrite lookup_insert_ne by done. by rewrite lookup_insert_eq.
Qed.

Lemma getFeatureLabel_subFeature (feature : Feature) (provinceName : string)
    (a : IslandAnchor) (coordinates : list PolygonCoords) :
  getFeatureLabel (subFeature feature provinceName a coordinates) = name a.
Proof.
  unfold getFeatureLabel, getStringProperty, subFeature. cbn [properties].
  by rewrite lookup_insert_eq.
Qed.

Lemma splitOutput_nonempty (feature : Feature) (anchors : list IslandAnchor)
    (coordinates : list PolygonCoords) :
  anchors <> [] -> NoDup (name <$> anchors) -> coordinates <> [] ->
  splitOutput feature anchors coordinates <> [].
Proof.
  intros Hne Hnd Hc E.
  assert (H := piecesOf_partition anchors coordinates Hne Hnd).
  rewrite <- (allPieces_splitOutput feature), E in H.
  apply Hc. by apply Permutation_nil in H.
Qed.

Lemma nonempty_ltb {A : Type} (l : list A) :
  l <> [] -> Nat.ltb 0 (length l) = true.
Proof. destruct l; [done|]. intros _. reflexivity. Qed.

Lemma anchorsWithPieces_all (anchors : list IslandAnchor)
    (coordinates : list PolygonCoords) :
  (forall a, a ∈ anchors ->
     exists p, p ∈ coordinates /\ assignedName anchors p = Some (name a)) ->
  anchorsWithPieces anchors coordinates = anchors.
Proof.
  intros Hall. unfold anchorsWithPieces. apply filter_all.
  intros a Ha E. destruct (Hall a Ha) as (p & Hp & Hassigned).
  assert (Hin : p ∈ piecesOf anchors a coordinates)
    by (by apply list_elem_of_filter).
  rewrite E in Hin. by apply elem_of_nil in Hin.
Qed.

(** C2, as the code has it.  For an archipelago province whose
    multi-polygon has at least one piece, the split returns exactly one
    region per anchor that received a piece, in the anchors' order; each has
    the province's name as resolved name, the anchor's name as label and the
    anchor's pieces as multi-polygon.  When the multi-polygon has no piece,
    no anchor receives one and the split returns the region itself, alone
    and unchanged.  For the Balearic Islands, when each of the four anchors
    is the one the code finds nearest to some piece, the split returns the
    four regions Mallorca, Menorca, Ibiza, Formentera. *)
Theorem splitIslandFeature_one_region_per_anchor :
  (forall feature anchors coordinates,
      ISLAND_SPLIT_ANCHORS !! getRawProvinceName feature = Some anchors ->
      geometry feature = MultiPolygon coordinates ->
      coordinates <> [] ->
      exists out,
        splitIslandFeature feature = Some out /\
        length out = length (anchorsWithPieces anchors coordinates) /\
        Forall2 (fun region anchor =>
                   getProvinceName region = getRawProvinceName feature /\
                   getFeatureLabel region = name anchor /\
                   geometry region
                   = MultiPolygon (piecesOf anchors anchor coordinates))
                out (anchorsWithPieces anchors coordinates)) /\
  (forall feature anchors,
      ISLAND_SPLIT_ANCHORS !! getRawProvinceName feature = Some anchors ->
      geometry feature = MultiPolygon [] ->
      anchorsWithPieces anchors [] = [] /\
      splitIslandFeature feature = Some [feature]) /\
  (forall feature coordinates,
      getRawProvinceName feature = "Illes Balears" ->
      geometry feature = MultiPolygon coordinates ->
      (forall a, a ∈ balearicAnchors ->
         exists p, p ∈ coordinates /\
                   assignedName balearicAnchors p = Some (name a)) ->
      exists out,
        splitIslandFeature feature = Some out /\
        length out = 4 /\
        getFeatureLabel <$> out = ["Mallorca"; "Menorca"; "Ibiza"; "Formentera"] /\
        Forall (fun region => getProvinceName region = "Illes Balears") out).
Proof.
  assert (General : forall feature anchors coordinates,
      ISLAND_SPLIT_ANCHORS !! getRawProvinceName feature = Some anchors ->
      geometry feature = MultiPolygon coordinates ->
      coordinates <> [] ->
      splitIslandFeature feature
      = Some (splitOutput feature anchors coordinates)).
  { intros feature anchors coordinates Htab Hgeo Hc.
    rewrite (splitIslandFeature_archipelago _ _ _ Htab Hgeo).
    destruct (anchors_lookup _ _ Htab) as [Hne Hnd].
    by rewrite nonempty_ltb by (by apply splitOutput_nonempty). }
  split; [|split].
  - intros feature anchors coordinates Htab Hgeo Hc.
    exists (splitOutput feature anchors coordinates).
    split; [by apply General|]. unfold splitOutput.
    split; [by rewrite length_fmap|].
    apply Forall2_fmap_l, Forall_Forall2_diag, Forall_forall. intros a _.
    unfold compose.
    by rewrite getProvinceName_subFeature, getFeatureLabel_subFeature.
  - intros feature anchors Htab Hgeo.
    assert (E : anchorsWithPieces anchors [] = []).
    { unfold anchorsWithPieces. apply filter_none. intros a _ Hp. by apply Hp. }
    split; [exact E|].
    rewrite (splitIslandFeature_archipelago _ _ _ Htab Hgeo).
    unfold splitOutput. by rewrite E.
  - intros feature coordinates Hraw Hgeo Hall.
    assert (Htab : ISLAND_SPLIT_ANCHORS !! getRawProvinceName feature
                   = Some balearicAnchors) by (by rewrite Hraw).
    assert (Hc : coordinates <> []).
    { destruct (Hall (mkAnchor "Mallorca" (double 39.6) (double 2.9)))
        as (p & Hp & _).
      - apply list_elem_of_here.
      - intros ->. by apply elem_of_nil in Hp. }
    exists (splitOutput feature balearicAnchors coordinates).
    split; [by apply General|]. unfold splitOutput.
    rewrite (anchorsWithPieces_all _ _ Hall), Hraw.
    split; [done|]. split.
    + unfold balearicAnchors.
      by rewrite !fmap_cons, !getFeatureLabel_subFeature.
    + apply Forall_fmap, Forall_forall. intros a _. cbn.
      apply getProvinceName_subFeature.
Qed.

Lemma splitIslandFeature_one_region_per_anchor_witness :
  (exists out,
      splitIslandFeature balearicSample = Some out /\
      length out = length (anchorsWithPieces balearicAnchors
                             (pieces (geometry balearicSample)))) /\
  splitIslandFeature (named "Las Palmas" (MultiPolygon []))
  = Some [named "Las Palmas" (MultiPolygon [])] /\
  (exists out,
      splitIslandFeature balearicSample = Some out /\
      length out = 4 /\
      getFeatureLabel <$> out = ["Mallorca"; "Menorca"; "Ibiza"; "Formentera"]).
Proof.
  destruct splitIslandFeature_one_region_per_anchor as (HG & HE & HB).
  split; [|split].
  - destruct (HG balearicSample balearicAnchors
                (pieces (geometry balearicSample)))
      as (out & H1 & H2 & _);
      [vm_compute; reflexivity | reflexivity | discriminate |].
    exists out. split; [exact H1 | exact H2].
  - apply (HE (named "Las Palmas" (MultiPolygon [])) lasPalmasAnchors);
      [vm_compute; reflexivity | reflexivity].
  - destruct (HB balearicSample (pieces (geometry balearicSample)))
      as (out & H1 & H2 & H3 & _);
      [vm_compute; reflexivity | reflexivity |
      | exists out; split; [exact H1 | split; [exact H2 | exact H3]]].
    intros a Ha. unfold balearicAnchors in Ha.
    apply elem_of_cons in Ha as [->|Ha];
      [exists (squareAt (double 39.6) (double 3) (double 0.3)); split;
         [repeat constructor | vm_compute; reflexivity]|].
    apply elem_of_cons in Ha as [->|Ha];
      [exists (squareAt (double 40) (double 4) (double 0.2)); split;
         [repeat constructor | vm_compute; reflexivity]|].
    apply elem_of_cons in Ha as [->|Ha];
      [exists (squareAt (double 39) (double 1.4) (double 0.1)); split;
         [repeat constructor | vm_compute; reflexivity]|].
    apply elem_of_cons in Ha as [->|Ha];
      [exists (squareAt (double 38.7) (double 1.4) (double 0.05)); split;
         [repeat constructor | vm_compute; reflexivity]|].
    by apply elem_of_nil in Ha.
Defined.

(** C2, as the specification words it, fails on an archipelago province whose
    multi-polygon has no piece: no anchor received a piece, and the split
    returns one region, the input itself. *)
Lemma splitIslandFeature_empty_archipelago :
  ISLAND_SPLIT_ANCHORS
    !! getRawProvinceName (named "Illes Balears" (MultiPolygon []))
  = Some balearicAnchors /\
  splitIslandFeature (named "Illes Balears" (MultiPolygon []))
  = Some [named "Illes Balears" (MultiPolygon [])] /\
  getFeatureLabel (named "Illes Balears" (MultiPolygon [])) = "Illes Balears" /\
  ~ (exists out,
        splitIslandFeature (named "Illes Balears" (MultiPolygon [])) = Some out /\
        length out = length (anchorsWithPieces balearicAnchors [])).
Proof.
  assert (E : splitIslandFeature (named "Illes Balears" (MultiPolygon []))
              = Some [named "Illes Balears" (MultiPolygon [])])
    by (vm_compute; reflexivity).
  split; [vm_compute; reflexivity|]. split; [exact E|].
  split; [vm_compute; reflexivity|].
  intros (out & Hout & Hlen). rewrite E in Hout.
  injection Hout as <-. discriminate Hlen.
Qed.

(** ** Assignment to the nearest anchor *)







(** ** The centroid map *)

Section CentroidMap.

Variable getBounds : Feature -> LatLngBounds.

Local Abbreviation center := (featureCentroid getBounds).
Local Abbreviation score := (featureAreaScore getBounds).

Lemma centroidStep_other (m : gmap string (LatLng * number)) (f : Feature)
    (n : string) :
  getProvinceName f <> n -> centroidStep getBounds m f !! n = m !! n.
Proof.
  intros Hn. unfold centroidStep. cbv zeta.
  destruct (m !! getProvinceName f) as [cur|];
    [destruct (SFltb _ _)|]; by rewrite ?lookup_insert_ne.
Qed.

(** After the loop the entry of a name is the measure of a region of that
    name, and there is one when there is such a region. *)
Lemma centroid_fold_lookup (fs : list Feature) (n : string) :
  match foldl (centroidStep getBounds) ∅ fs !! n with
  | None => forall f, f ∈ fs -> getProvinceName f <> n
  | Some (c, s) =>
      exists f, f ∈ fs /\ getProvinceName f = n /\ c = center f /\ s = score f
  end.
Proof.
  induction fs as [|f fs IH] using rev_ind.
  - cbn. rewrite lookup_empty. intros f Hf. by apply elem_of_nil in Hf.
  - rewrite foldl_snoc. set (m := foldl (centroidStep getBounds) ∅ fs) in *.
    destruct (decide (getProvinceName f = n)) as [Hn|Hn].
    + assert (Hf : f ∈ fs ++ [f])
        by (apply elem_of_app; right; apply list_elem_of_here).
      unfold centroidStep. cbv zeta. rewrite Hn.
      destruct (m !! n) as [[c s]|] eqn:Em.
      * cbn [snd]. destruct (score f >? s)%num.
        -- rewrite lookup_insert_eq. by exists f.
        -- rewrite Em. destruct IH as (f' & Hf' & Hn' & -> & ->).
           exists f'. split; [|done]. apply elem_of_app. by left.
      * rewrite lookup_insert_eq. by exists f.
    + rewrite centroidStep_other by done.
      destruct (m !! n) as [[c s]|].
      * destruct IH as (f' & Hf' & Hn' & -> & ->).
        exists f'. split; [|done]. apply elem_of_app. by left.
      * intros g [Hg|Hg]%elem_of_app; [by apply IH|].
        by apply list_elem_of_singleton in Hg as ->.
Qed.

(** The entry of a name is the measure of the region of that name whose
    score every earlier region of the name is below and no later one is
    above. *)
Lemma centroid_fold_kept (fs : list Feature) :
  forall (i : nat) (f : Feature),
    fs !! i = Some f ->
    (forall j g, fs !! j = Some g ->
       getProvinceName g = getProvinceName f ->
       (j < i -> (score g <? score f)%num = true) /\
       (i < j -> (score g >? score f)%num = false)) ->
    foldl (centroidStep getBounds) ∅ fs !! getProvinceName f
    = Some (center f, score f).
Proof.
  induction fs as [|g fs IH] using rev_ind; intros i f Hi Hbest; [done|].
  rewrite foldl_snoc. set (m := foldl (centroidStep getBounds) ∅ fs) in *.
  destruct (decide (i < length fs)) as [Hlt|Hge].
  - rewrite lookup_app_l in Hi by done.
    assert (Hm : m !! getProvinceName f = Some (center f, score f)).
    { apply (IH i f Hi). intros j g' Hj Hg'.
      apply (Hbest j g'); [|done]. apply lookup_lt_Some in Hj as Hjl.
      by rewrite lookup_app_l. }
    destruct (decide (getProvinceName g = getProvinceName f)) as [Hn|Hn].
    + unfold centroidStep. cbv zeta. rewrite Hn, Hm. cbn [snd].
      destruct (Hbest (length fs) g) as [_ Hafter];
        [by rewrite list_lookup_middle | done |].
      by rewrite (Hafter Hlt).
    + by rewrite centroidStep_other.
  - apply lookup_lt_Some in Hi as Hlen. rewrite length_app in Hlen.
    cbn in Hlen. assert (i = length fs) as -> by lia.
    rewrite list_lookup_middle in Hi by done. injection Hi as ->.
    unfold centroidStep. cbv zeta.
    assert (Hfold := centroid_fold_lookup fs (getProvinceName f)).
    fold m in Hfold.
    destruct (m !! getProvinceName f) as [[c s]|].
    + destruct Hfold as (f' & [j Hj]%list_elem_of_lookup & Hn' & -> & ->).
      cbn [snd]. apply lookup_lt_Some in Hj as Hjl.
      destruct (Hbest j f') as [Hbefore _];
        [by rewrite lookup_app_l | done |].
      by rewrite (Hbefore Hjl), lookup_insert_eq.
    + by rewrite lookup_insert_eq.
Qed.

End CentroidMap.

(** C4.  In the name-to-centre map the entry of a name is the midpoint of
    the bounding box of the region of that name whose score is above the
    score of every earlier region of the name and not below the score of any
    later one, scores being the doubles the code computes and compares: a
    greater score replaces the entry, an equal one leaves the first.  So of
    two regions named ["X"] with scores 10 and 20, in either order, the
    centre kept for ["X"] is that of the score-20 region. *)
Theorem provinceCentroids_keeps_largest (getBounds : Feature -> LatLngBounds) :
  (forall (fs : list Feature) (i : nat) (f : Feature),
      fs !! i = Some f ->
      (forall j g, fs !! j = Some g ->
         getProvinceName g = getProvinceName f ->
         (j < i -> (featureAreaScore getBounds g
                    <? featureAreaScore getBounds f)%num = true) /\
         (i < j -> (featureAreaScore getBounds g
                    >? featureAreaScore getBounds f)%num = false)) ->
      provinceCentroids getBounds (Some {| features := fs |})
        !! getProvinceName f
      = Some (((getSouth (getBounds f) + getNorth (getBounds f)) / double 2)%num,
              ((getWest (getBounds f) + getEast (getBounds f)) / double 2)%num)) /\
  (forall f10 f20 : Feature,
      getProvinceName f10 = "X" -> getProvinceName f20 = "X" ->
      featureAreaScore getBounds f10 = double 10 ->
      featureAreaScore getBounds f20 = double 20 ->
      provinceCentroids getBounds (Some {| features := [f10; f20] |}) !! "X"
      = Some (((getSouth (getBounds f20) + getNorth (getBounds f20)) / double 2)%num,
              ((getWest (getBounds f20) + getEast (getBounds f20)) / double 2)%num) /\
      provinceCentroids getBounds (Some {| features := [f20; f10] |}) !! "X"
      = Some (((getSouth (getBounds f20) + getNorth (getBounds f20)) / double 2)%num,
              ((getWest (getBounds f20) + getEast (getBounds f20)) / double 2)%num)).
Proof.
  assert (General : forall (fs : list Feature) (i : nat) (f : Feature),
      fs !! i = Some f ->
      (forall j g, fs !! j = Some g ->
         getProvinceName g = getProvinceName f ->
         (j < i -> (featureAreaScore getBounds g
                    <? featureAreaScore getBounds f)%num = true) /\
         (i < j -> (featureAreaScore getBounds g
                    >? featureAreaScore getBounds f)%num = false)) ->
      provinceCentroids getBounds (Some {| features := fs |})
        !! getProvinceName f
      = Some (((getSouth (getBounds f) + getNorth (getBounds f)) / double 2)%num,
              ((getWest (getBounds f) + getEast (getBounds f)) / double 2)%num)).
  { intros fs i f Hi Hbest. unfold provinceCentroids. cbn [features].
    by rewrite lookup_fmap, (centroid_fold_kept getBounds fs i f Hi Hbest). }
  split; [exact General|].
  intros f10 f20 Hn10 Hn20 Hs10 Hs20.
  split; rewrite <- Hn20.
  - apply (General [f10; f20] 1 f20); [done|].
    intros [|[|j]] g Hj Hg; cbn in Hj; try done.
    + injection Hj as <-. split; [|lia]. intros _. by rewrite Hs10, Hs20.
    + split; lia.
  - apply (General [f20; f10] 0 f20); [done|].
    intros [|[|j]] g Hj Hg; cbn in Hj; try done.
    + split; lia.
    + injection Hj as <-. split; [lia|]. intros _. by rewrite Hs10, Hs20.
Qed.

Lemma provinceCentroids_keeps_largest_witness :
  provinceCentroids bboxBounds (Some {| features := [smallX; largeX] |}) !! "X"
  = Some (double 38, double 3.5) /\
  provinceCentroids bboxBounds (Some {| features := [largeX; smallX] |}) !! "X"
  = Some (double 38, double 3.5) /\
  provinceCentroids bboxBounds
    (Some {| features := [smallX; largeX; smallX] |}) !! "X"
  = Some (double 38, double 3.5) /\
  featureAreaScore bboxBounds tieFirst = featureAreaScore bboxBounds tieSecond /\
  provinceCentroids bboxBounds
    (Some {| features := [tieFirst; tieSecond] |}) !! "T"
  = Some (double 0.5000000000000002, double 0.5).
Proof.
  destruct (provinceCentroids_keeps_largest bboxBounds) as [HG HX].
  destruct (HX smallX largeX) as [H1 H2];
    [reflexivity | reflexivity | vm_compute; reflexivity
    | vm_compute; reflexivity |].
  split; [rewrite H1; vm_compute; reflexivity|].
  split; [rewrite H2; vm_compute; reflexivity|].
  split; [|split; [vm_compute; reflexivity|]].
  - change "X" with (getProvinceName largeX).
    rewrite (HG [smallX; largeX; smallX] 1 largeX);
      [vm_compute; reflexivity | reflexivity |].
    intros [|[|[|j]]] g Hj _; [| | |discriminate Hj];
      injection Hj as <-; (split; intros Hlt; [|try (exfalso; lia)]);
      try (exfalso; lia); vm_compute; reflexivity.
  - change "T" with (getProvinceName tieFirst).
    rewrite (HG [tieFirst; tieSecond] 0 tieFirst);
      [vm_compute; reflexivity | reflexivity |].
    intros [|[|j]] g Hj _; [| |discriminate Hj];
      injection Hj as <-; (split; intros Hlt; [|try (exfalso; lia)]);
      try (exfalso; lia); vm_compute; reflexivity.
Defined.

(** ** Markers *)

Section MarkerLists.

Variables Math_cos Math_sin : number -> number.

Local Abbreviation groupMarkers' := (groupMarkers Math_cos Math_sin).
Local Abbreviation avatarMarkers' := (avatarMarkers Math_cos Math_sin).

Lemma groupMarkers_profile (center : LatLng) (ps : list ProfileWithProvince) :
  profile <$> groupMarkers' center ps = ps.
Proof.
  unfold groupMarkers. apply list_eq. intros i.
  rewrite list_lookup_fmap, list_lookup_imap. by destruct (ps !! i).
Qed.

Lemma groupMarkers_key (center : LatLng) (ps : list ProfileWithProvince) :
  key <$> groupMarkers' center ps = id <$> ps.
Proof.
  unfold groupMarkers. apply list_eq. intros i.
  rewrite !list_lookup_fmap, list_lookup_imap. by destruct (ps !! i).
Qed.

Lemma avatarMarkers_profile
    (byProvince : list (string * list ProfileWithProvince))
    (centroids : gmap string LatLng) :
  profile <$> avatarMarkers' byProvince centroids
  = placedGroups centroids byProvince.
Proof.
  unfold avatarMarkers, placedGroups.
  induction byProvince as [|[n ps] rest IH]; [done|].
  rewrite bind_cons, fmap_app, IH, fmap_cons. cbn [concat fst snd].
  f_equal. destruct (centroids !! n) as [center|] eqn:E.
  - rewrite bool_decide_eq_true_2 by eauto. apply groupMarkers_profile.
  - by rewrite bool_decide_eq_false_2 by (by intros [? ?]).
Qed.

Lemma avatarMarkers_key
    (byProvince : list (string * list ProfileWithProvince))
    (centroids : gmap string LatLng) :
  key <$> avatarMarkers' byProvince centroids
  = id <$> (profile <$> avatarMarkers' byProvince centroids).
Proof.
  unfold avatarMarkers.
  induction byProvince as [|[n ps] rest IH]; [done|].
  rewrite bind_cons, !fmap_app, IH. f_equal. cbn [fst snd].
  destruct (centroids !! n) as [center|]; [|done].
  by rewrite groupMarkers_key, groupMarkers_profile.
Qed.


End MarkerLists.

(** Adding a profile to the group of its province adds it to the placed
    profiles exactly when the province has a centroid. *)
Lemma placedGroups_mapSet (centroids : gmap string LatLng)
    (byProvince : list (string * list ProfileWithProvince))
    (n : string) (p : ProfileWithProvince) :
  placedGroups centroids
    (mapSet n ((mapGet n byProvince ?? []) ++ [p]) byProvince)
  ≡ₚ placedGroups centroids byProvince
      ++ (if bool_decide (is_Some (centroids !! n)) then [p] else []).
Proof.
  unfold placedGroups.
  induction byProvince as [|[k v] rest IH]; cbn [mapGet mapSet].
  - cbn. destruct (bool_decide _); by rewrite ?app_nil_r.
  - destruct (decide (k = n)) as [->|Hk].
    + rewrite !fmap_cons. cbn [concat fst snd nullish].
      destruct (bool_decide (is_Some (centroids !! n))).
      * rewrite <- !app_assoc. apply Permutation_app_head, Permutation_app_comm.
      * by rewrite app_nil_r.
    + rewrite !fmap_cons. cbn [concat]. rewrite IH. by rewrite app_assoc.
Qed.

Lemma placedGroups_groupStep (centroids : gmap string LatLng)
    (byProvince : list (string * list ProfileWithProvince))
    (p : ProfileWithProvince) :
  placedGroups centroids (groupStep byProvince p)
  ≡ₚ placedGroups centroids byProvince
      ++ (if placed centroids p then [p] else []).
Proof.
  unfold groupStep, placed. destruct (provNameOf p) as [n|].
  - destruct (decide (n = "")) as [->|Hn].
    + rewrite bool_decide_eq_false_2 by (intros H; by apply H).
      by rewrite app_nil_r.
    + rewrite (bool_decide_eq_true_2 (n <> "")) by done.
      apply placedGroups_mapSet.
  - by rewrite app_nil_r.
Qed.

Lemma placedGroups_profilesByProvince (centroids : gmap string LatLng)
    (profiles : list ProfileWithProvince) :
  placedGroups centroids (profilesByProvince profiles)
  ≡ₚ filter (fun p => placed centroids p) profiles.
Proof.
  unfold profilesByProvince.
  induction profiles as [|p profiles IH] using rev_ind; [done|].
  rewrite foldl_snoc, placedGroups_groupStep, IH, filter_app.
  apply Permutation_app_head. rewrite filter_cons, filter_nil.
  destruct (placed centroids p); by cbn.
Qed.
Lemma provinceCentroids_is_Some (getBounds : Feature -> LatLngBounds)
    (fs : list Feature) (n : string) :
  is_Some (provinceCentroids getBounds (Some {| features := fs |}) !! n) <->
  exists f, f ∈ fs /\ getProvinceName f = n.
Proof.
  unfold provinceCentroids. cbn [features]. rewrite lookup_fmap.
  assert (Hfold := centroid_fold_lookup getBounds fs n).
  destruct (foldl (centroidStep getBounds) ∅ fs !! n) as [[c s]|]; cbn.
  - destruct Hfold as (f & Hf & Hn & _). split; [|by eauto].
    intros _. by exists f.
  - split; [by intros [? ?]|]. intros (f & Hf & Hn). by destruct (Hfold f Hf).
Qed.

(** C10.  The markers are those of the placed profiles, one each: the
    profiles of the markers are, up to order, the profiles whose province
    name is present, non-empty and a key of the centroid map, each marker
    carrying its profile's id; a profile that is not placed has no marker;
    and a name is a key of the centroid map exactly when a region of the
    fetched collection resolves to it. *)
Theorem avatarMarkers_exactly_placed
    (Math_cos Math_sin : number -> number)
    (getBounds : Feature -> LatLngBounds)
    (profiles : list ProfileWithProvince)
    (geoData : option FeatureCollection) :
  profile <$> avatarMarkers Math_cos Math_sin (profilesByProvince profiles)
                (provinceCentroids getBounds geoData)
  ≡ₚ filter (fun p => placed (provinceCentroids getBounds geoData) p) profiles
  /\
  key <$> avatarMarkers Math_cos Math_sin (profilesByProvince profiles)
            (provinceCentroids getBounds geoData)
  = id <$> (profile <$> avatarMarkers Math_cos Math_sin
                          (profilesByProvince profiles)
                          (provinceCentroids getBounds geoData))
  /\
  (forall p,
      placed (provinceCentroids getBounds geoData) p = false ->
      p ∉ (profile <$> avatarMarkers Math_cos Math_sin
                         (profilesByProvince profiles)
                         (provinceCentroids getBounds geoData)))
  /\
  (forall p,
      placed (provinceCentroids getBounds geoData) p = true <->
      exists n data f,
        provincias p = Some {| nombre := n |} /\ n <> "" /\
        geoData = Some data /\ f ∈ features data /\ getProvinceName f = n).
Proof.
  assert (Hperm :
    profile <$> avatarMarkers Math_cos Math_sin (profilesByProvince profiles)
                  (provinceCentroids getBounds geoData)
    ≡ₚ filter (fun p => placed (provinceCentroids getBounds geoData) p) profiles)
    by (rewrite avatarMarkers_profile; apply placedGroups_profilesByProvince).
  split; [exact Hperm|]. split; [apply avatarMarkers_key|]. split.
  - intros p Hp Hin. rewrite Hperm in Hin.
    apply list_elem_of_filter in Hin as [Hin _]. rewrite Hp in Hin. done.
  - intros p. unfold placed, provNameOf.
    destruct (provincias p) as [[n]|]; cbn [nombre].
    + rewrite andb_true_iff, !bool_decide_eq_true. split.
      * intros [Hn Hc]. destruct geoData as [[fs]|].
        -- apply provinceCentroids_is_Some in Hc as (f & Hf & Hfn).
           exists n, {| features := fs |}, f. done.
        -- cbn in Hc. rewrite lookup_empty in Hc. by destruct Hc.
      * intros (n' & [fs] & f & [= <-] & Hn & -> & Hf & Hfn).
        split; [done|]. apply provinceCentroids_is_Some. eauto.
    + split; [done|]. by intros (n & data & f & ? & _).
Qed.

Lemma avatarMarkers_exactly_placed_witness :
  let solo := mkProfile "u1" None None (Some (mkProvincia "X")) in
  let lost := mkProfile "u2" None None None in
  let blank := mkProfile "u3" None None (Some (mkProvincia "")) in
  let away := mkProfile "u4" None None (Some (mkProvincia "Atlantis")) in
  let geoData := Some {| features := [smallX] |} in
  let markers :=
    avatarMarkers seriesCos seriesSin
      (profilesByProvince [solo; lost; blank; away])
      (provinceCentroids bboxBounds geoData) in
  (profile <$> markers ≡ₚ [solo]) /\
  (lost ∉ (profile <$> markers)) /\
  (blank ∉ (profile <$> markers)) /\
  (away ∉ (profile <$> markers)).
Proof.
  intros solo lost blank away geoData markers.
  destruct (avatarMarkers_exactly_placed seriesCos seriesSin bboxBounds
              [solo; lost; blank; away] geoData) as (H1 & _ & H3 & _).
  split; [exact H1|].
  split; [|split]; apply H3; vm_compute; reflexivity.
Defined.

(** ** The marker ring *)







(** ** Layer styles *)

Section LayerStyles.

Variable geoFeatures : list Feature.
Variable selectedProvince : option string.
Variable occupied : gset string.

Local Abbreviation resolved :=
  (layersResolved geoFeatures selectedProvince occupied).
Local Abbreviation priority :=
  (layerPriority selectedProvince occupied).

(** The style of [styleFeature] is the priority without a hovered layer. *)
Lemma styleFeature_priority (f : Feature) :
  styleFeature selectedProvince occupied (Some f)
  = if decide (Some (getProvinceName f) = selectedProvince)
    then SELECTED_STYLE else restStyle occupied (getProvinceName f).
Proof. reflexivity. Qed.

Lemma initialState_resolved :
  resolved (initialState geoFeatures selectedProvince occupied).
Proof.
  unfold layersResolved, initialState. cbn [layerStyle prevHoveredRef].
  split; [by rewrite length_fmap|]. split; [done|].
  intros i f Hi. rewrite list_lookup_fmap, Hi. cbn [fmap option_fmap option_map].
  rewrite styleFeature_priority. unfold layerPriority. cbn [prevHoveredRef].
  by case_decide.
Qed.

Lemma remount_resolved (st : MapState) :
  resolved st -> resolved (remount geoFeatures selectedProvince occupied st).
Proof.
  intros (Hlen & Hprev & Hsty). unfold layersResolved, remount.
  cbn [layerStyle prevHoveredRef generation].
  split; [by rewrite length_fmap|]. split.
  - intros g layer pn Href. destruct (Hprev g layer pn Href) as [Hg Hf].
    split; [lia | done].
  - intros i f Hi. rewrite list_lookup_fmap, Hi.
    cbn [fmap option_fmap option_map].
    rewrite styleFeature_priority. unfold layerPriority.
    cbn [prevHoveredRef generation].
    case_decide; [done|].
    destruct (prevHoveredRef st) as [[[g l] pn]|] eqn:Ep; [|done].
    destruct (Hprev g l pn eq_refl) as [Hg _].
    rewrite decide_False; [done|]. cbn. intros [= -> _]. lia.
Qed.

Lemma length_setStyle (target : LayerId) (style : PathStyle) (st : MapState) :
  length (setStyle target style st) = length (layerStyle st).
Proof. unfold setStyle. case_decide; by rewrite ?length_insert. Qed.

Lemma setStyle_lookup (target : LayerId) (style : PathStyle) (st : MapState)
    (i : nat) :
  setStyle target style st !! i
  = if decide (target = (generation st, i) /\ i < length (layerStyle st))
    then Some style else layerStyle st !! i.
Proof.
  unfold setStyle. destruct target as [g l]. cbn [fst snd].
  destruct (decide (g = generation st)) as [->|Hg].
  - rewrite list_lookup_insert.
    destruct (decide (l = i /\ l < length (layerStyle st))) as [[-> Hl]|Hn].
    + by rewrite decide_True.
    + rewrite decide_False; [done|]. intros [[= ->] Hl]. by apply Hn.
  - rewrite decide_False; [done|]. intros [[= -> _] _]. done.
Qed.

(** The styles before the hovered layer takes the hover style: the layer
    the ref held, when it is another layer of the map and not of the
    selected province, is back at rest. *)
Lemma onMouseover_lookup (layer : nat) (feature : Feature) (st : MapState)
    (i : nat) :
  layerStyle (onMouseover selectedProvince occupied layer feature st) !! i
  = if decide (layer = i /\ layer < length (layerStyle st) /\
               Some (getProvinceName feature) <> selectedProvince)
    then Some HOVER_STYLE
    else match prevHoveredRef st with
         | Some (prevLayer, pn) =>
             if decide (prevLayer = (generation st, i) /\
                        i < length (layerStyle st) /\
                        i <> layer /\ Some pn <> selectedProvince)
             then Some (restStyle occupied pn)
             else layerStyle st !! i
         | None => layerStyle st !! i
         end.
Proof.
  unfold onMouseover. cbn [layerStyle].
  set (styles := match prevHoveredRef st with
                 | Some (prevLayer, prevProvince) => _
                 | None => _
                 end).
  assert (Hstyles : length styles = length (layerStyle st) /\
    styles !! i
    = match prevHoveredRef st with
      | Some (prevLayer, pn) =>
          if decide (prevLayer = (generation st, i) /\
                     i < length (layerStyle st) /\
                     i <> layer /\ Some pn <> selectedProvince)
          then Some (restStyle occupied pn)
          else layerStyle st !! i
      | None => layerStyle st !! i
      end).
  { unfold styles. destruct (prevHoveredRef st) as [[prevLayer pn]|]; [|done].
    destruct (decide (prevLayer ≠ (generation st, layer))) as [Hne|He].
    - destruct (decide (Some pn ≠ selectedProvince)) as [Hs|Hs].
      + rewrite length_setStyle, setStyle_lookup. split; [done|].
        destruct (decide (prevLayer = (generation st, i) /\
                          i < length (layerStyle st))) as [[-> Hi]|Hn].
        * rewrite decide_True; [done|]. repeat split; try done.
          intros ->. by apply Hne.
        * rewrite decide_False; [done|]. intros (? & ? & _). by apply Hn.
      + split; [done|]. rewrite decide_False; [done|].
        intros (_ & _ & _ & ?). done.
    - split; [done|]. apply dec_stable in He as ->.
      rewrite decide_False; [done|]. intros ([= ->] & _ & Hn & _). by apply Hn. }
  destruct Hstyles as [Hlen Hlook].
  destruct (decide (Some (getProvinceName feature) ≠ selectedProvince))
    as [Hsel|Hsel].
  - rewrite list_lookup_insert, Hlen.
    destruct (decide (layer = i /\ layer < length (layerStyle st)))
      as [[-> Hl]|Hn].
    + by rewrite decide_True.
    + rewrite decide_False; [exact Hlook|]. intros (? & ? & _). by apply Hn.
  - rewrite decide_False; [exact Hlook|]. intros (_ & _ & ?). done.
Qed.

Lemma onMouseout_lookup (layer : nat) (feature : Feature) (st : MapState)
    (i : nat) :
  layerStyle (onMouseout selectedProvince occupied layer feature st) !! i
  = if decide (layer = i /\ layer < length (layerStyle st) /\
               Some (getProvinceName feature) <> selectedProvince)
    then Some (restStyle occupied (getProvinceName feature))
    else layerStyle st !! i.
Proof.
  unfold onMouseout. cbn [layerStyle].
  destruct (decide (Some (getProvinceName feature) ≠ selectedProvince))
    as [Hsel|Hsel].
  - rewrite list_lookup_insert.
    destruct (decide (layer = i /\ layer < length (layerStyle st)))
      as [[-> Hl]|Hn].
    + by rewrite decide_True.
    + rewrite decide_False; [done|]. intros (? & ? & _). by apply Hn.
  - rewrite decide_False; [done|]. intros (_ & _ & ?). done.
Qed.

Lemma length_onMouseover (layer : nat) (feature : Feature) (st : MapState) :
  length (layerStyle (onMouseover selectedProvince occupied layer feature st))
  = length (layerStyle st).
Proof.
  unfold onMouseover. cbn [layerStyle].
  destruct (prevHoveredRef st) as [[prevLayer pn]|];
    repeat case_decide; by rewrite ?length_insert, ?length_setStyle.
Qed.

Lemma onMouseover_resolved (layer : nat) (feature : Feature) (st : MapState) :
  geoFeatures !! layer = Some feature -> resolved st ->
  resolved (onMouseover selectedProvince occupied layer feature st).
Proof.
  intros Hlayer (Hlen & Hprev & Hsty).
  assert (Hlt : layer < length (layerStyle st))
    by (rewrite Hlen; by eapply lookup_lt_Some).
  split; [|split].
  - by rewrite length_onMouseover.
  - intros g l pn [= <- <- <-]. split; [done | by eauto].
  - intros i f Hi. rewrite onMouseover_lookup, (Hsty i f Hi).
    assert (Hilt : i < length (layerStyle st))
      by (rewrite Hlen; by eapply lookup_lt_Some).
    unfold layerPriority.
    cbn [onMouseover prevHoveredRef generation fmap option_fmap option_map fst].
    destruct (decide (layer = i)) as [->|Hli].
    + assert (f = feature) as -> by congruence.
      destruct (decide (Some (getProvinceName feature) = selectedProvince))
        as [Hsel|Hsel].
      * rewrite decide_False by (intros (_ & _ & ?); done).
        destruct (prevHoveredRef st) as [[prevLayer pn]|]; [|done].
        rewrite decide_False; [done|]. intros (_ & _ & ? & _). done.
      * rewrite decide_True by done. by rewrite decide_True.
    + rewrite decide_False by (intros (? & _); done).
      rewrite (decide_False (P := Some (generation st, layer) = Some (generation st, i)))
        by (intros [= ?]; done).
      destruct (prevHoveredRef st) as [[[g l] pn]|] eqn:Ep; [|done].
      cbn [fmap option_fmap option_map fst].
      destruct (Hprev g l pn eq_refl) as (_ & f' & Hf' & Hpn).
      destruct (decide ((g, l) = (generation st, i))) as [[= -> ->]|Hne].
      * assert (f' = f) as -> by congruence. subst pn.
        destruct (decide (Some (getProvinceName f) = selectedProvince))
          as [Hsel|Hsel].
        -- rewrite decide_False; [done|]. intros (_ & _ & _ & ?). done.
        -- rewrite decide_True; [done|]. repeat split; try done; congruence.
      * rewrite decide_False by (intros (? & _); done).
        case_decide; [done|].
        rewrite decide_False; [done|]. intros [= ? ?]. apply Hne. congruence.
Qed.

Lemma onMouseout_resolved (layer : nat) (feature : Feature) (st : MapState) :
  geoFeatures !! layer = Some feature -> resolved st ->
  resolved (onMouseout selectedProvince occupied layer feature st).
Proof.
  intros Hlayer (Hlen & Hprev & Hsty).
  assert (Hlt : layer < length (layerStyle st))
    by (rewrite Hlen; by eapply lookup_lt_Some).
  split; [|split].
  - unfold onMouseout. cbn [layerStyle].
    case_decide; by rewrite ?length_insert.
  - intros g l pn. unfold onMouseout. cbn [prevHoveredRef generation].
    destruct (prevHoveredRef st) as [[prevLayer pn']|] eqn:Ep; [|done].
    case_decide; [done|]. intros [= -> ->]. by apply Hprev.
  - intros i f Hi. rewrite onMouseout_lookup, (Hsty i f Hi).
    unfold layerPriority. cbn [onMouseout prevHoveredRef generation].
    destruct (decide (Some (getProvinceName f) = selectedProvince))
      as [Hsel|Hsel].
    + destruct (decide (layer = i)) as [->|Hli].
      * assert (f = feature) as -> by congruence.
        rewrite decide_False; [done|]. intros (_ & _ & ?). done.
      * rewrite decide_False; [done|]. intros (? & _). done.
    + destruct (decide (layer = i)) as [->|Hli].
      * assert (f = feature) as -> by congruence.
        rewrite decide_True by done.
        destruct (prevHoveredRef st) as [[prevLayer pn]|]; [|done].
        destruct (decide (prevLayer = (generation st, i))) as [->|Hne]; [done|].
        cbn. rewrite decide_False; [done|]. intros [= ?]. done.
      * rewrite decide_False by (intros (? & _); done).
        destruct (prevHoveredRef st) as [[prevLayer pn]|]; [|done].
        destruct (decide (prevLayer = (generation st, layer))) as [->|Hne].
        -- cbn. rewrite decide_False; [done|]. intros [= ?]. done.
        -- done.
Qed.

(** With no layer held by the ref, or a layer that is gone, the map shows
    the styles of [styleFeature]. *)
Lemma unhovered_styles (st : MapState) :
  resolved st ->
  (forall l pn, prevHoveredRef st <> Some ((generation st, l), pn)) ->
  layerStyle st
  = (fun f => styleFeature selectedProvince occupied (Some f)) <$> geoFeatures.
Proof.
  intros (Hlen & _ & Hsty) Hnone.
  apply list_eq. intros i. rewrite list_lookup_fmap.
  destruct (geoFeatures !! i) as [f|] eqn:E.
  - rewrite (Hsty i f E). cbn [fmap option_fmap option_map].
    rewrite styleFeature_priority. unfold layerPriority.
    case_decide; [done|].
    destruct (prevHoveredRef st) as [[[g l] pn]|] eqn:Ep; [|done].
    cbn. rewrite decide_False; [done|]. intros [= -> ->]. by apply (Hnone i pn).
  - apply lookup_ge_None in E. apply lookup_ge_None. lia.
Qed.

End LayerStyles.

Lemma HOVER_STYLE_distinct (provinceName : string) (occupied : gset string) :
  SELECTED_STYLE <> HOVER_STYLE /\ restStyle occupied provinceName <> HOVER_STYLE.
Proof. unfold restStyle. split; [done|]. by case_decide. Qed.

(** ** The page *)

Section PageRuns.

Variable geoFeatures : list Feature.
Variable occupied : gset string.
Variable app0 : AppState.

Local Abbreviation running := (run geoFeatures occupied app0).
Local Abbreviation resolved :=
  (layersResolved geoFeatures (myProvince app0) occupied).
Local Abbreviation invariant := (pageInvariant geoFeatures occupied app0).

Lemma myProvince_onClick (layer : nat) (a : AppState) :
  myProvince (onClick geoFeatures layer a) = myProvince a.
Proof.
  unfold onClick, handleProvinceSelect.
  destruct (geoFeatures !! layer); [|done].
  destruct (session a); [|done]. by case_decide.
Qed.

Lemma rerender_invariant (before after : AppState) (st : MapState) :
  myProvince after = myProvince app0 ->
  resolved st ->
  resolved (rerender geoFeatures occupied before after st).
Proof.
  intros Hsel Hres. unfold rerender. case_decide; [done|].
  rewrite Hsel. by apply remount_resolved.
Qed.

Lemma rerender_hovered (before after : AppState) (st : MapState) :
  prevHoveredRef (rerender geoFeatures occupied before after st)
  = prevHoveredRef st /\
  hovered (rerender geoFeatures occupied before after st) = hovered st.
Proof. unfold rerender. by case_decide. Qed.

Lemma handle_invariant (pg : PageState) (ev : LayerEvent) :
  invariant pg -> invariant (handle geoFeatures occupied pg ev).
Proof.
  unfold pageInvariant. intros (Hsel & Hres & Hhov).
  destruct ev as [layer|layer|layer|open]; cbn [handle].
  - destruct (geoFeatures !! layer) as [feature|] eqn:E; [|done].
    cbn [appState mapState]. split; [done|]. rewrite Hsel. split.
    + by apply onMouseover_resolved.
    + intros h [= <-]. by exists (generation (mapState pg), layer), feature.
  - destruct (geoFeatures !! layer) as [feature|] eqn:E; [|done].
    cbn [appState mapState]. split; [done|]. rewrite Hsel. split.
    + by apply onMouseout_resolved.
    + done.
  - cbv zeta. cbn [appState mapState].
    assert (Hsel' : myProvince (onClick geoFeatures layer (appState pg))
                    = myProvince app0)
      by (by rewrite myProvince_onClick).
    split; [done|]. split; [by apply rerender_invariant|].
    destruct (rerender_hovered (appState pg) (onClick geoFeatures layer (appState pg))
                (mapState pg)) as [-> ->]. exact Hhov.
  - cbv zeta. cbn [appState mapState].
    split; [done|]. split; [by apply rerender_invariant|].
    destruct (rerender_hovered (appState pg) (setConfirmOpen open (appState pg))
                (mapState pg)) as [-> ->]. exact Hhov.
Qed.

Lemma run_invariant (events : list LayerEvent) :
  invariant (running events).
Proof.
  unfold run. induction events as [|ev events IH] using rev_ind.
  - split; [done|]. split; [apply initialState_resolved | done].
  - rewrite foldl_snoc. by apply handle_invariant.
Qed.

Lemma run_snoc (events : list LayerEvent) (ev : LayerEvent) :
  running (events ++ [ev]) = handle geoFeatures occupied (running events) ev.
Proof. unfold run. by rewrite foldl_snoc. Qed.

Lemma hover_is_ref (events : list LayerEvent) (i : nat) :
  layerStyle (mapState (running events)) !! i = Some HOVER_STYLE ->
  exists f, geoFeatures !! i = Some f /\
    Some (getProvinceName f) <> myProvince app0 /\
    prevHoveredRef (mapState (running events))
    = Some ((generation (mapState (running events)), i), getProvinceName f).
Proof.
  destruct (run_invariant events) as (_ & (Hlen & Hprev & Hsty) & _).
  intros Hi. apply lookup_lt_Some in Hi as Hlt. rewrite Hlen in Hlt.
  apply lookup_lt_is_Some in Hlt as [f Hf]. exists f. split; [done|].
  rewrite (Hsty i f Hf) in Hi. injection Hi as Hi. unfold layerPriority in Hi.
  destruct (HOVER_STYLE_distinct (getProvinceName f) occupied) as [H1 H2].
  case_decide as Hsel; [done|]. split; [done|].
  case_decide as Href; [|done].
  destruct (prevHoveredRef (mapState (running events))) as [[[g l] pn]|] eqn:Ep;
    [|done].
  cbn in Href. injection Href as -> ->.
  destruct (Hprev _ i pn eq_refl) as (_ & f' & Hf' & <-). congruence.
Qed.

End PageRuns.

Lemma specStyle_unique_names (geoFeatures : list Feature)
    (selectedProvince : option string) (occupied : gset string)
    (st : MapState) (i : nat) (f : Feature) :
  NoDup (getProvinceName <$> geoFeatures) ->
  layersResolved geoFeatures selectedProvince occupied st ->
  geoFeatures !! i = Some f ->
  layerPriority selectedProvince occupied i (getProvinceName f) st
  = specStyle (getProvinceName f) selectedProvince (hoveredName st)
      (bool_decide (getProvinceName f ∈ occupied)).
Proof.
  intros Hnd (_ & Hprev & _) Hi.
  unfold layerPriority, specStyle, restStyle, hoveredName.
  case_decide; [done|].
  destruct (prevHoveredRef st) as [[[g l] pn]|]; cbn.
  - destruct (Hprev g l pn eq_refl) as (_ & f' & Hf' & <-).
    assert (Hiff : l = i <-> getProvinceName f = getProvinceName f').
    { split; [intros ->; congruence|]. intros Hn.
      apply (NoDup_lookup _ l i (getProvinceName f') Hnd);
        rewrite list_lookup_fmap; [by rewrite Hf' | rewrite Hi; cbn; by f_equal]. }
    destruct (decide (g = generation st)) as [->|Hg].
    + destruct (decide (l = i)) as [->|Hl].
      * rewrite !decide_True by (done || by f_equal; apply Hiff). done.
      * rewrite (decide_False (P := Some (generation st, l) = Some (generation st, i)))
          by (intros [= ?]; done).
        rewrite (decide_False (P := Some (getProvinceName f)
                                    = Some (getProvinceName f')))
          by (intros [= ?]; apply Hl; by apply Hiff).
        unfold bool_decide; by repeat case_decide.
    + rewrite (decide_False (P := Some (g, l) = Some (generation st, i)))
        by (intros [= ? ?]; done).
      rewrite (decide_False (P := Some (getProvinceName f) = None)) by done.
      unfold bool_decide; by repeat case_decide.
  - rewrite (decide_False (P := Some (getProvinceName f) = None)) by done.
    unfold bool_decide; by repeat case_decide.
Qed.

(** C8, as the code has it.  After any sequence of pointer events, clicks
    and dialog changes every layer shows the style of the priority
    selected, hovered, occupied, default, where the hovered level belongs to
    the one layer the ref holds, while that layer is on the map: a region of
    the selected name shows the selected style whatever else holds;
    otherwise the layer the pointer last entered shows the hover style;
    otherwise an occupied region the occupied style; otherwise the default
    style.  Entering a layer makes it the layer the ref holds.  A click or
    a dialog change that alters [dialogOpen] puts new layers on the map,
    each in the style selected, occupied, default, and none is hovered until
    the pointer enters one, though the [hovered] state stays.  When no two
    regions share a name the style is the function of the region name, the
    selected name, the name of the layer the ref holds on the map and the
    occupancy.  With ["A"] selected, ["B"] hovered and ["A"], ["C"]
    occupied, the regions A, B, C, D show the selected, hover, occupied and
    default styles. *)
Theorem layer_style_priority :
  (forall (geoFeatures : list Feature) (occupied : gset string)
          (app0 : AppState) (events : list LayerEvent)
          (i : nat) (f : Feature),
      geoFeatures !! i = Some f ->
      let selectedProvince := myProvince app0 in
      let pg := run geoFeatures occupied app0 events in
      let st := mapState pg in
      (Some (getProvinceName f) = selectedProvince ->
       layerStyle st !! i = Some SELECTED_STYLE) /\
      (Some (getProvinceName f) <> selectedProvince ->
       fst <$> prevHoveredRef st = Some (generation st, i) ->
       layerStyle st !! i = Some HOVER_STYLE) /\
      (Some (getProvinceName f) <> selectedProvince ->
       fst <$> prevHoveredRef st <> Some (generation st, i) ->
       getProvinceName f ∈ occupied ->
       layerStyle st !! i = Some OCCUPIED_STYLE) /\
      (Some (getProvinceName f) <> selectedProvince ->
       fst <$> prevHoveredRef st <> Some (generation st, i) ->
       getProvinceName f ∉ occupied ->
       layerStyle st !! i = Some DEFAULT_STYLE) /\
      (NoDup (getProvinceName <$> geoFeatures) ->
       layerStyle st !! i
       = Some (specStyle (getProvinceName f) selectedProvince
                 (hoveredName st)
                 (bool_decide (getProvinceName f ∈ occupied)))) /\
      (let st' := mapState (run geoFeatures occupied app0
                         (events ++ [mouseover i])) in
       prevHoveredRef st' = Some ((generation st', i), getProvinceName f) /\
       hoveredName st' = Some (getProvinceName f) /\
       hovered st' = Some {| label := getFeatureLabel f;
                             province := getProvinceName f |}) /\
      (forall ev : LayerEvent,
          let pg' := run geoFeatures occupied app0 (events ++ [ev]) in
          confirmOpen (appState pg') <> confirmOpen (appState pg) ->
          generation (mapState pg') = S (generation st) /\
          layerStyle (mapState pg')
          = (fun g => styleFeature selectedProvince occupied (Some g))
              <$> geoFeatures /\
          hoveredName (mapState pg') = None /\
          hovered (mapState pg') = hovered st)) /\
  (let st := mapState (run regionsABCD (occupiedProvinces residentsAC) userInA
                    [mouseover 1]) in
   myProvince userInA = Some "A" /\
   occupiedProvinces residentsAC = {[ "A"; "C" ]} /\
   getProvinceName <$> regionsABCD = ["A"; "B"; "C"; "D"] /\
   hoveredName st = Some "B" /\
   province <$> hovered st = Some "B" /\
   layerStyle st
   = [SELECTED_STYLE; HOVER_STYLE; OCCUPIED_STYLE; DEFAULT_STYLE]).
Proof.
  split.
  - intros geoFeatures occupied app0 events i f Hi selectedProvince pg st.
    destruct (run_invariant geoFeatures occupied app0 events)
      as (Hsel & Hres & _).
    fold pg in Hsel, Hres. fold st in Hres.
    destruct (Hres) as (_ & Hprev & Hsty).
    specialize (Hsty i f Hi). fold selectedProvince in Hsty.
    split; [|split; [|split; [|split; [|split; [|split]]]]].
    + intros Hs. rewrite Hsty. unfold layerPriority.
      by rewrite decide_True by done.
    + intros Hs Hhov. rewrite Hsty. unfold layerPriority.
      rewrite decide_False by done. by rewrite decide_True by done.
    + intros Hs Hhov Hocc. rewrite Hsty. unfold layerPriority, restStyle.
      rewrite !decide_False by done. by rewrite decide_True by done.
    + intros Hs Hhov Hocc. rewrite Hsty. unfold layerPriority, restStyle.
      by rewrite !decide_False by done.
    + intros Hnd. rewrite Hsty. f_equal.
      by apply (specStyle_unique_names geoFeatures).
    + rewrite run_snoc. cbn [handle]. rewrite Hi. cbn [mapState].
      unfold hoveredName, onMouseover.
      cbn [prevHoveredRef generation hovered].
      by rewrite decide_True.
    + intros ev pg'. unfold pg'. rewrite run_snoc. fold pg.
      assert (Hre : forall after : AppState,
        myProvince after = selectedProvince ->
        confirmOpen after <> confirmOpen (appState pg) ->
        let st' := rerender geoFeatures occupied (appState pg) after st in
        generation st' = S (generation st) /\
        layerStyle st'
        = (fun g => styleFeature selectedProvince occupied (Some g))
            <$> geoFeatures /\
        hoveredName st' = None /\ hovered st' = hovered st).
      { intros after Hm Hc st'. unfold st', rerender.
        rewrite decide_False by done. rewrite Hm.
        unfold remount, hoveredName.
        cbn [generation layerStyle prevHoveredRef hovered].
        repeat split.
        destruct (prevHoveredRef st) as [[[g l] pn]|] eqn:Ep; [|done].
        destruct (Hprev g l pn eq_refl) as [Hg _].
        rewrite decide_False; [done | lia]. }
      destruct ev as [layer|layer|layer|open]; cbn [handle].
      * destruct (geoFeatures !! layer); cbn [appState]; done.
      * destruct (geoFeatures !! layer); cbn [appState]; done.
      * cbv zeta. cbn [appState mapState]. intros Hc. apply Hre; [|done].
        unfold selectedProvince. by rewrite myProvince_onClick.
      * cbv zeta. cbn [appState mapState]. intros Hc. by apply Hre.
  - vm_compute. repeat split; reflexivity.
Qed.

Lemma layer_style_priority_witness :
  let st := mapState (run regionsABCD {[ "A"; "C" ]} userInA
                   [mouseover 1; mouseout 1; mouseover 2; click 2;
                    mouseover 0]) in
  generation st = 1 /\
  layerStyle st !! 0 = Some SELECTED_STYLE /\
  layerStyle st !! 1 = Some DEFAULT_STYLE /\
  layerStyle st !! 2 = Some OCCUPIED_STYLE.
Proof.
  destruct layer_style_priority as [H _]. intros st.
  destruct (H regionsABCD {[ "A"; "C" ]} userInA
              [mouseover 1; mouseout 1; mouseover 2; click 2; mouseover 0]
              0 (named "A" (rectangle (double 0) (double 0) (double 1) (double 1)))
              eq_refl)
    as (HA & _).
  destruct (H regionsABCD {[ "A"; "C" ]} userInA
              [mouseover 1; mouseout 1; mouseover 2; click 2; mouseover 0]
              1 (named "B" (rectangle (double 0) (double 1) (double 1) (double 2)))
              eq_refl)
    as (_ & _ & _ & HB & _).
  destruct (H regionsABCD {[ "A"; "C" ]} userInA
              [mouseover 1; mouseout 1; mouseover 2; click 2; mouseover 0]
              2 (named "C" (rectangle (double 0) (double 2) (double 1) (double 3)))
              eq_refl)
    as (_ & _ & HC & _).
  split; [vm_compute; reflexivity|]. split; [|split].
  - apply HA. vm_compute. reflexivity.
  - apply HB; [vm_compute; discriminate | vm_compute; discriminate |].
    apply (bool_decide_unpack _). vm_compute. exact I.
  - apply HC; [vm_compute; discriminate | vm_compute; discriminate |].
    apply (bool_decide_unpack _). vm_compute. exact I.
Defined.

(** C8, as the specification words it, fails when two regions share a name, as the
    regions of a split archipelago do: with the pointer on the first
    Balearic region, the second carries the hovered name, is not selected,
    and keeps the default style. *)
Lemma sibling_region_not_hovered :
  let st := mapState (run balearicRegions ∅ visitor [mouseover 0]) in
  getProvinceName <$> balearicRegions
  = ["Illes Balears"; "Illes Balears"; "Illes Balears"; "Illes Balears"] /\
  getFeatureLabel <$> balearicRegions
  = ["Mallorca"; "Menorca"; "Ibiza"; "Formentera"] /\
  hovered st = Some {| label := "Mallorca"; province := "Illes Balears" |} /\
  layerStyle st !! 1 = Some DEFAULT_STYLE /\
  layerStyle st !! 1
  <> Some (specStyle "Illes Balears" None (province <$> hovered st) false).
Proof.
  vm_compute. repeat split; try reflexivity. discriminate.
Qed.

(** * Further properties of the code *)

(** ** HTML escaping *)

Lemma append_cons (a : ascii) (s t : string) :
  String.append (String a s) t = String a (String.append s t).
Proof. reflexivity. Qed.

Lemma append_nil (t : string) : String.append EmptyString t = t.
Proof. reflexivity. Qed.

Lemma append_assoc (r s1 s2 : string) :
  String.append (String.append r s1) s2 = String.append r (String.append s1 s2).
Proof.
  induction r as [|b r IH]; [by rewrite !append_nil|].
  by rewrite !append_cons, IH.
Qed.

Lemma replaceAll_app (c : ascii) (replacement s1 s2 : string) :
  replaceAll c replacement (String.append s1 s2)
  = String.append (replaceAll c replacement s1) (replaceAll c replacement s2).
Proof.
  induction s1 as [|a s1 IH]; [by rewrite !append_nil|].
  rewrite append_cons. cbn [replaceAll]. rewrite IH.
  destruct (Ascii.eqb a c); [by rewrite append_assoc | by rewrite append_cons].
Qed.

Lemma escapeHtml_app (s1 s2 : string) :
  escapeHtml (String.append s1 s2)
  = String.append (escapeHtml s1) (escapeHtml s2).
Proof. unfold escapeHtml. by rewrite !replaceAll_app. Qed.

Lemma escapeHtml_single (a : ascii) :
  escapeHtml (String a EmptyString) = escapeChar a.
Proof.
  unfold escapeHtml, escapeChar. cbn [replaceAll].
  destruct (Ascii.eqb_spec a "&"%char) as [->|H1]; [by vm_compute|].
  cbn [replaceAll].
  destruct (Ascii.eqb_spec a "<"%char) as [->|H2]; [by vm_compute|].
  cbn [replaceAll].
  destruct (Ascii.eqb_spec a ">"%char) as [->|H3]; [by vm_compute|].
  cbn [replaceAll].
  destruct (Ascii.eqb_spec a "034"%char) as [->|H4]; [by vm_compute|].
  cbn [replaceAll].
  destruct (Ascii.eqb_spec a "'"%char) as [->|H5]; [by vm_compute|done].
Qed.

Lemma escapeHtml_escapeEach (str : string) :
  escapeHtml str = escapeEach str.
Proof.
  induction str as [|a rest IH]; [reflexivity|].
  change (String a rest) with (String.append (String a EmptyString) rest).
  by rewrite escapeHtml_app, escapeHtml_single, IH.
Qed.

(** X1.  The five replacement passes of [escapeHtml] amount to escaping
    each character once, on its own: the ampersands the later passes see in
    the entities of the earlier ones are never escaped again.  So escaping
    respects concatenation. *)
Theorem escapeHtml_each_character_once (str s1 s2 : string) :
  escapeHtml str = escapeEach str /\
  escapeHtml (String.append s1 s2)
  = String.append (escapeHtml s1) (escapeHtml s2).
Proof.
  split; [apply escapeHtml_escapeEach | apply escapeHtml_app].
Qed.

Lemma existsChar_app (P : ascii -> bool) (s t : string) :
  existsChar P (String.append s t) = existsChar P s || existsChar P t.
Proof.
  induction s as [|a s IH]; [by rewrite append_nil|].
  rewrite append_cons. cbn [existsChar]. by rewrite IH, orb_assoc.
Qed.

Lemma escapeChar_no_markup (a : ascii) :
  existsChar markupChar (escapeChar a) = false.
Proof.
  unfold escapeChar.
  destruct (Ascii.eqb_spec a "&"%char) as [->|H1]; [by vm_compute|].
  destruct (Ascii.eqb a "<"%char) eqn:H2; [by vm_compute|].
  destruct (Ascii.eqb a ">"%char) eqn:H3; [by vm_compute|].
  destruct (Ascii.eqb a "034"%char) eqn:H4; [by vm_compute|].
  destruct (Ascii.eqb a "'"%char) eqn:H5; [by vm_compute|].
  cbn [existsChar]. unfold markupChar. by rewrite H2, H3, H4, H5.
Qed.

(** X2.  No [<], [>], double quote or apostrophe is left in an escaped
    string, whatever the input: the text put between tags or inside a quoted
    attribute cannot close either. *)
Theorem escapeHtml_no_markup (str : string) :
  existsChar markupChar (escapeHtml str) = false.
Proof.
  rewrite escapeHtml_escapeEach.
  induction str as [|a rest IH]; [reflexivity|].
  cbn [escapeEach]. by rewrite existsChar_app, escapeChar_no_markup, IH.
Qed.

Lemma escapeChar_app_inj (a b : ascii) (x y : string) :
  String.append (escapeChar a) x = String.append (escapeChar b) y ->
  a = b /\ x = y.
Proof.
  unfold escapeChar.
  destruct (Ascii.eqb_spec a "&"%char) as [->|A1];
    [|destruct (Ascii.eqb_spec a "<"%char) as [->|A2];
      [|destruct (Ascii.eqb_spec a ">"%char) as [->|A3];
        [|destruct (Ascii.eqb_spec a "034"%char) as [->|A4];
          [|destruct (Ascii.eqb_spec a "'"%char) as [->|A5]]]]];
  (destruct (Ascii.eqb_spec b "&"%char) as [->|B1];
    [|destruct (Ascii.eqb_spec b "<"%char) as [->|B2];
      [|destruct (Ascii.eqb_spec b ">"%char) as [->|B3];
        [|destruct (Ascii.eqb_spec b "034"%char) as [->|B4];
          [|destruct (Ascii.eqb_spec b "'"%char) as [->|B5]]]]]);
  cbv [String.append]; intros H; by simplify_eq.
Qed.

(** X3.  Escaping loses nothing: two strings with the same escaped form
    are the same string. *)
Theorem escapeHtml_injective (s1 s2 : string) :
  escapeHtml s1 = escapeHtml s2 -> s1 = s2.
Proof.
  rewrite !escapeHtml_escapeEach. revert s2.
  induction s1 as [|a s1 IH]; intros [|b s2]; cbn [escapeEach]; intros H.
  - done.
  - exfalso. revert H. unfold escapeChar.
    repeat (destruct (Ascii.eqb _ _)); cbv [String.append]; discriminate.
  - exfalso. revert H. unfold escapeChar.
    repeat (destruct (Ascii.eqb _ _)); cbv [String.append]; discriminate.
  - apply escapeChar_app_inj in H as [-> H]. f_equal. by apply IH.
Qed.

Lemma escapeHtml_injective_witness :
  escapeHtml "Ana <3 & Co" = "Ana &lt;3 &amp; Co" /\
  "Ana <3 & Co" = "Ana <3 & Co".
Proof.
  split; [vm_compute; reflexivity|].
  apply (escapeHtml_injective "Ana <3 & Co" "Ana <3 & Co").
  vm_compute. reflexivity.
Defined.

(** ** Ties between anchors *)



(** ** What the split keeps, and splitting twice *)

Lemma subFeature_other_property (feature : Feature) (provinceName : string)
    (a : IslandAnchor) (coordinates : list PolygonCoords) (k : string) :
  k <> "mapDisplayName" -> k <> "mapProvinceName" ->
  (properties (subFeature feature provinceName a coordinates) ?? ∅) !! k
  = (properties feature ?? ∅) !! k.
Proof.
  intros H1 H2. unfold subFeature. cbn [properties nullish].
  by rewrite !lookup_insert_ne.
Qed.

Lemma getStringProperty_nullish (feature : Feature) (k : string) :
  getStringProperty feature k
  = match (properties feature ?? ∅) !! k with
    | Some (JString value) => Some value
    | _ => None
    end.
Proof.
  unfold getStringProperty. destruct (properties feature); cbn; [done|].
  by rewrite lookup_empty.
Qed.

Lemma getRawProvinceName_subFeature (feature : Feature) (provinceName : string)
    (a : IslandAnchor) (coordinates : list PolygonCoords) :
  getRawProvinceName (subFeature feature provinceName a coordinates)
  = getRawProvinceName feature.
Proof.
  unfold getRawProvinceName.
  by rewrite !getStringProperty_nullish, !subFeature_other_property.
Qed.

(** The regions a split returns: the input itself, or the sub-region of an
    anchor that received a piece. *)
Lemma splitIslandFeature_regions (feature : Feature) (out : list Feature)
    (region : Feature) :
  splitIslandFeature feature = Some out -> region ∈ out ->
  out = [feature] \/
  exists anchors coordinates a,
    ISLAND_SPLIT_ANCHORS !! getRawProvinceName feature = Some anchors /\
    geometry feature = MultiPolygon coordinates /\
    out = splitOutput feature anchors coordinates /\
    a ∈ anchors /\ piecesOf anchors a coordinates <> [] /\
    region = subFeature feature (getRawProvinceName feature) a
               (piecesOf anchors a coordinates).
Proof.
  intros Hout Hin.
  destruct (lookupAnchors_cases (getRawProvinceName feature))
    as [(anchors & Htab & _)|[(_ & Hk & _)|(_ & _ & Hl)]];
    [destruct (geometry feature) as [coordinates|coordinates] eqn:Hgeo| |].
  - rewrite splitIslandFeature_other in Hout by eauto. left. congruence.
  - rewrite (splitIslandFeature_archipelago _ _ _ Htab Hgeo) in Hout.
    destruct (splitOutput feature anchors coordinates) as [|o rest] eqn:E;
      cbn in Hout; injection Hout as <-; [by left|].
    right. exists anchors, coordinates.
    rewrite <- E in Hin. unfold splitOutput, anchorsWithPieces in Hin.
    apply list_elem_of_fmap in Hin as (a & -> & Ha).
    apply list_elem_of_filter in Ha as [Hp Ha].
    exists a. by rewrite E.
  - destruct (geometry feature) as [coordinates|coordinates] eqn:Hgeo.
    + rewrite splitIslandFeature_other in Hout by eauto. left. congruence.
    + assert (Hnone : splitIslandFeature feature = None)
        by (apply splitIslandFeature_throws; split; [done | by eauto]).
      congruence.
  - rewrite splitIslandFeature_other in Hout by eauto. left. congruence.
Qed.

(** X6.  A region returned by the split carries every property of the
    region it comes from, the two bookkeeping keys [mapProvinceName] and
    [mapDisplayName] apart; so it has the same raw province name. *)
Theorem split_keeps_properties (feature : Feature) (out : list Feature)
    (region : Feature) :
  splitIslandFeature feature = Some out -> region ∈ out ->
  (forall k : string,
      k <> "mapDisplayName" -> k <> "mapProvinceName" ->
      (properties region ?? ∅) !! k = (properties feature ?? ∅) !! k) /\
  getRawProvinceName region = getRawProvinceName feature.
Proof.
  intros Hout Hin.
  destruct (splitIslandFeature_regions _ _ _ Hout Hin)
    as [->|(anchors & coordinates & a & _ & _ & _ & _ & _ & ->)].
  - apply list_elem_of_singleton in Hin as ->. done.
  - split; [|apply getRawProvinceName_subFeature].
    intros k H1 H2. by apply subFeature_other_property.
Qed.

Lemma split_keeps_properties_witness :
  getFeatureLabel (default balearicSample (balearicRegions !! 1)) = "Menorca" /\
  getRawProvinceName (default balearicSample (balearicRegions !! 1))
  = "Illes Balears".
Proof.
  split; [vm_compute; reflexivity|].
  destruct (split_keeps_properties balearicSample balearicRegions
              (default balearicSample (balearicRegions !! 1)))
    as [_ H]; [vm_compute; reflexivity | |].
  - apply list_elem_of_lookup. exists 1. vm_compute. reflexivity.
  - rewrite H. vm_compute. reflexivity.
Defined.

Lemma filter_ext_in {A : Type} (P Q : A -> Prop)
    `{!forall x, Decision (P x)} `{!forall x, Decision (Q x)} (l : list A) :
  (forall x, x ∈ l -> P x <-> Q x) -> filter P l = filter Q l.
Proof.
  induction l as [|x l IH]; intros Hext; [done|].
  rewrite !filter_cons.
  assert (Hx := Hext x (list_elem_of_here _ _)).
  rewrite IH by (intros y Hy; by apply Hext, list_elem_of_further).
  destruct (decide (P x)), (decide (Q x)); tauto || done.
Qed.

Lemma filter_name_unique (anchors : list IslandAnchor) (a : IslandAnchor) :
  NoDup (name <$> anchors) -> a ∈ anchors ->
  filter (fun b => name b = name a) anchors = [a].
Proof.
  induction anchors as [|b rest IH]; intros Hnd Hin.
  - by apply elem_of_nil in Hin.
  - rewrite fmap_cons in Hnd. apply NoDup_cons in Hnd as [Hb Hnd].
    rewrite filter_cons. apply elem_of_cons in Hin as [->|Hin].
    + rewrite decide_True by done. f_equal. apply filter_none.
      intros c Hc Hn. apply Hb. rewrite <- Hn. by apply list_elem_of_fmap_2.
    + rewrite decide_False; [by apply IH|].
      intros Hn. apply Hb. rewrite Hn. by apply list_elem_of_fmap_2.
Qed.

Lemma subFeature_again (feature : Feature) (provinceName : string)
    (a : IslandAnchor) (c c' : list PolygonCoords) :
  subFeature (subFeature feature provinceName a c) provinceName a c'
  = subFeature feature provinceName a c'.
Proof.
  unfold subFeature. cbn [properties nullish]. f_equal. f_equal.
  apply map_eq. intros k. rewrite !lookup_insert. by repeat case_decide.
Qed.

(** A sub-region splits into itself. *)
Lemma splitIslandFeature_subFeature (feature : Feature)
    (anchors : list IslandAnchor) (coordinates : list PolygonCoords)
    (a : IslandAnchor) :
  ISLAND_SPLIT_ANCHORS !! getRawProvinceName feature = Some anchors ->
  a ∈ anchors -> piecesOf anchors a coordinates <> [] ->
  splitIslandFeature
    (subFeature feature (getRawProvinceName feature) a
       (piecesOf anchors a coordinates))
  = Some [subFeature feature (getRawProvinceName feature) a
            (piecesOf anchors a coordinates)].
Proof.
  intros Htab Ha Hp. destruct (anchors_lookup _ _ Htab) as [Hne Hnd].
  set (ca := piecesOf anchors a coordinates) in *.
  set (region := subFeature feature (getRawProvinceName feature) a ca).
  assert (Hraw : getRawProvinceName region = getRawProvinceName feature)
    by apply getRawProvinceName_subFeature.
  assert (Hpieces : forall b, b ∈ anchors ->
            piecesOf anchors b ca = if decide (name b = name a) then ca else []).
  { intros b Hb. unfold ca, piecesOf. rewrite list_filter_filter.
    case_decide as Hn.
    - apply list_filter_iff. intros p. rewrite Hn. tauto.
    - apply filter_none. intros p _ [H1 H2]. congruence. }
  assert (Hserved : anchorsWithPieces anchors ca = [a]).
  { unfold anchorsWithPieces.
    rewrite <- (filter_name_unique anchors a Hnd Ha).
    apply filter_ext_in. intros b Hb. rewrite (Hpieces b Hb).
    case_decide; [|tauto]. by split. }
  rewrite (splitIslandFeature_archipelago region anchors ca);
    [|by rewrite Hraw | done].
  unfold splitOutput. rewrite Hserved, fmap_cons, fmap_nil. cbn [length Nat.ltb Nat.leb].
  rewrite (Hpieces a Ha), decide_True by done.
  rewrite Hraw. unfold region. by rewrite subFeature_again.
Qed.

Lemma splitIslandFeature_again (feature : Feature) (out : list Feature)
    (region : Feature) :
  splitIslandFeature feature = Some out -> region ∈ out ->
  splitIslandFeature region = Some [region].
Proof.
  intros Hout Hin.
  destruct (splitIslandFeature_regions _ _ _ Hout Hin)
    as [->|(anchors & coordinates & a & Htab & _ & _ & Ha & Hp & ->)].
  - by apply list_elem_of_singleton in Hin as ->.
  - by apply splitIslandFeature_subFeature.
Qed.

Lemma mapM_singletons {A : Type} (g : A -> option (list A)) (l : list A) :
  (forall x, x ∈ l -> g x = Some [x]) ->
  mapM g l = Some ((fun x => [x]) <$> l).
Proof.
  intros Hall. apply mapM_Some, Forall2_fmap_r, Forall_Forall2_diag, Forall_forall.
  exact Hall.
Qed.

Lemma concat_singletons {A : Type} (l : list A) :
  concat ((fun x => [x]) <$> l) = l.
Proof. induction l as [|x l IH]; [done|]. cbn. by rewrite IH. Qed.

Lemma elem_of_concat {A : Type} (x : A) (ls : list (list A)) :
  x ∈ concat ls -> exists l, x ∈ l /\ l ∈ ls.
Proof.
  induction ls as [|l ls IH]; cbn; intros Hx; [by apply elem_of_nil in Hx|].
  apply elem_of_app in Hx as [Hx|Hx].
  - exists l. split; [done | apply list_elem_of_here].
  - destruct (IH Hx) as (l' & ? & ?). exists l'.
    split; [done | by apply list_elem_of_further].
Qed.

(** X7.  Splitting is idempotent: a region the split returned splits into
    itself alone, and a collection that is the result of the split is
    returned unchanged when split again. *)
Theorem splitArchipelagos_idempotent :
  (forall (feature : Feature) (out : list Feature) (region : Feature),
      splitIslandFeature feature = Some out -> region ∈ out ->
      splitIslandFeature region = Some [region]) /\
  (forall data data' : FeatureCollection,
      splitArchipelagos data = Some data' ->
      splitArchipelagos data' = Some data').
Proof.
  split; [exact splitIslandFeature_again|].
  intros [fs] [fs']. unfold splitArchipelagos. cbn [features].
  destruct (mapM splitIslandFeature fs) as [parts|] eqn:E; [|done].
  intros [= <-].
  rewrite (mapM_singletons splitIslandFeature (concat parts)).
  - by rewrite concat_singletons.
  - intros region Hin. apply elem_of_concat in Hin as (out & Hin & Hout).
    apply mapM_Some in E.
    apply list_elem_of_lookup in Hout as [i Hi].
    destruct (Forall2_lookup_r _ _ _ _ _ E Hi) as (feature & _ & Hf).
    by apply (splitIslandFeature_again feature out).
Qed.

Lemma splitArchipelagos_idempotent_witness :
  splitArchipelagos {| features := balearicRegions |}
  = Some {| features := balearicRegions |}.
Proof.
  destruct splitArchipelagos_idempotent as [_ H].
  apply (H {| features := [balearicSample] |}).
  vm_compute. reflexivity.
Defined.

Lemma anchors_lookup_domain (k : string) :
  match ISLAND_SPLIT_ANCHORS !! k with
  | Some anchors =>
      k ∈ ["Illes Balears"; "Las Palmas"; "Santa Cruz De Tenerife"] /\
      length anchors <= 4
  | None =>
      k ∉ ["Illes Balears"; "Las Palmas"; "Santa Cruz De Tenerife"]
  end.
Proof.
  destruct (ISLAND_SPLIT_ANCHORS !! k) as [anchors|] eqn:E;
    revert E; unfold ISLAND_SPLIT_ANCHORS.
  - rewrite !lookup_insert_Some, lookup_empty.
    intros [[<- <-]|[_ [[<- <-]|[_ [[<- <-]|[_ ?]]]]]]; try done;
      (split; [set_solver | cbn; lia]).
  - rewrite !lookup_insert_None. intros [[[_ ?] ?] ?]. set_solver.
Qed.

(** X8.  The split throws exactly on the multi-polygon regions whose raw
    name is a key of [Object.prototype].  When it returns, it returns at
    least one and at most four regions, and more than the region itself only
    if the raw name is exactly one of [Illes Balears], [Las Palmas],
    [Santa Cruz De Tenerife] and the geometry is a multi-polygon: any other
    region comes back alone and unchanged. *)
Theorem split_region_count (feature : Feature) :
  (splitIslandFeature feature = None <-> inheritedKey feature) /\
  (~ inheritedKey feature -> is_Some (splitIslandFeature feature)) /\
  (forall out,
      splitIslandFeature feature = Some out ->
      1 <= length out <= 4 /\
      (getRawProvinceName feature
         ∉ ["Illes Balears"; "Las Palmas"; "Santa Cruz De Tenerife"] ->
       out = [feature]) /\
      (forall coordinates,
          geometry feature = Polygon coordinates -> out = [feature])).
Proof.
  split; [apply splitIslandFeature_throws|]. split.
  { intros Hok. destruct (splitIslandFeature feature) eqn:E; [done|].
    by apply splitIslandFeature_throws in E. }
  intros out Hout.
  assert (Hdom := anchors_lookup_domain (getRawProvinceName feature)).
  destruct (ISLAND_SPLIT_ANCHORS !! getRawProvinceName feature)
    as [anchors|] eqn:Htab;
    [destruct (geometry feature) as [coordinates|coordinates] eqn:Hgeo|].
  - rewrite splitIslandFeature_other in Hout by eauto.
    injection Hout as <-. repeat split; cbn; try done; lia.
  - rewrite (splitIslandFeature_archipelago _ _ _ Htab Hgeo) in Hout.
    destruct Hdom as [Hin Hlen].
    destruct (splitOutput feature anchors coordinates) as [|o rest] eqn:E;
      cbn in Hout; injection Hout as <-.
    + repeat split; cbn; try done; lia.
    + split; [|split; done].
      split; [cbn; lia|]. rewrite <- E. unfold splitOutput, anchorsWithPieces.
      rewrite length_fmap.
      etrans; [apply length_filter | done].
  - destruct (lookupAnchors_cases (getRawProvinceName feature))
      as [(anchors & Htab' & _)|[(_ & Hk & _)|(_ & _ & Hl)]]; [congruence| |].
    + destruct (geometry feature) as [coordinates|coordinates] eqn:Hgeo.
      * rewrite splitIslandFeature_other in Hout by eauto.
        injection Hout as <-. repeat split; cbn; try done; lia.
      * assert (Hnone : splitIslandFeature feature = None)
          by (apply splitIslandFeature_throws; split; [done | by eauto]).
        congruence.
    + rewrite splitIslandFeature_other in Hout by eauto.
      injection Hout as <-. repeat split; cbn; try done; lia.
Qed.

Lemma split_region_count_witness :
  splitIslandFeature
    (named "illes balears"
       (MultiPolygon [squareAt (double 39) (double 3) (double 1)]))
  = Some [named "illes balears"
            (MultiPolygon [squareAt (double 39) (double 3) (double 1)])].
Proof.
  destruct (split_region_count
              (named "illes balears"
                 (MultiPolygon [squareAt (double 39) (double 3) (double 1)])))
    as (_ & Hsome & Hout).
  destruct Hsome as [out E].
  - intros [Hk _]. revert Hk. apply (bool_decide_unpack _). vm_compute. exact I.
  - rewrite E. f_equal. destruct (Hout out E) as (_ & Hother & _).
    apply Hother. apply (bool_decide_unpack _). vm_compute. exact I.
Defined.

(** ** The groups of profiles *)

Lemma mapGet_mapSet {V : Type} (k k' : string) (v : V) (m : list (string * V)) :
  mapGet k' (mapSet k v m) = if decide (k = k') then Some v else mapGet k' m.
Proof.
  induction m as [|[k0 v0] m IH]; cbn [mapSet mapGet].
  - by repeat case_decide.
  - destruct (decide (k0 = k)) as [->|Hk]; cbn [mapGet].
    + by repeat case_decide.
    + rewrite IH. repeat case_decide; congruence.
Qed.

Lemma mapGet_None_keys {V : Type} (k : string) (m : list (string * V)) :
  mapGet k m = None <-> k ∉ fst <$> m.
Proof.
  induction m as [|[k0 v0] m IH]; cbn [mapGet].
  - split; [intros _ H; by apply elem_of_nil in H | done].
  - rewrite fmap_cons, not_elem_of_cons. cbn [fst].
    case_decide; [split; [done | intros [? _]; congruence]|].
    rewrite IH. split; [by split | by intros [_ ?]].
Qed.

Lemma keys_mapSet {V : Type} (k : string) (v : V) (m : list (string * V)) :
  fst <$> mapSet k v m
  = if decide (k ∈ fst <$> m) then fst <$> m else (fst <$> m) ++ [k].
Proof.
  induction m as [|[k0 v0] m IH]; cbn [mapSet].
  - rewrite decide_False; [done | intros H; by apply elem_of_nil in H].
  - destruct (decide (k0 = k)) as [->|Hk].
    + rewrite !fmap_cons. cbn [fst].
      by rewrite decide_True by apply list_elem_of_here.
    + rewrite !fmap_cons, IH. cbn [fst].
      destruct (decide (k ∈ fst <$> m)) as [Hin|Hin].
      * by rewrite decide_True by (by apply list_elem_of_further).
      * rewrite decide_False; [done|].
        intros [?|?]%elem_of_cons; congruence.
Qed.

Lemma mapGet_elem_of {V : Type} (k : string) (v : V) (m : list (string * V)) :
  NoDup (fst <$> m) -> ((k, v) ∈ m <-> mapGet k m = Some v).
Proof.
  induction m as [|[k0 v0] m IH]; intros Hnd; cbn [mapGet].
  - split; [intros H; by apply elem_of_nil in H | done].
  - rewrite fmap_cons in Hnd. apply NoDup_cons in Hnd as [Hk0 Hnd]. cbn in Hk0.
    rewrite elem_of_cons, (IH Hnd). case_decide as Hk.
    + subst k0. split.
      * intros [[= ->]|Hget]; [done|]. exfalso. apply Hk0.
        destruct (decide (k ∈ fst <$> m)) as [?|Hnin]; [done|].
        apply mapGet_None_keys in Hnin. congruence.
      * intros [= ->]. by left.
    + split; [intros [[= ? ?]|?]; [congruence | done] | by right].
Qed.

(** After the loop the keys are distinct and the entry of a name holds the
    profiles of that name, in their order, when the name is not empty and
    some profile has it. *)
Lemma profilesByProvince_spec (profiles : list ProfileWithProvince) :
  NoDup (fst <$> profilesByProvince profiles) /\
  forall n : string,
    mapGet n (profilesByProvince profiles)
    = if decide (n <> "" /\
                 filter (fun p => provNameOf p = Some n) profiles <> [])
      then Some (filter (fun p => provNameOf p = Some n) profiles)
      else None.
Proof.
  unfold profilesByProvince.
  induction profiles as [|p ps [IHnd IHget]] using rev_ind.
  - split; [constructor|]. intros n. cbn. case_decide as H; [|done].
    by destruct H as [_ H].
  - rewrite foldl_snoc. set (G := foldl groupStep [] ps) in *.
    assert (Hfilter : forall n,
      filter (fun q => provNameOf q = Some n) (ps ++ [p])
      = filter (fun q => provNameOf q = Some n) ps
        ++ (if decide (provNameOf p = Some n) then [p] else [])).
    { intros n. rewrite filter_app, filter_cons, filter_nil. by case_decide. }
    unfold groupStep. destruct (provNameOf p) as [m|] eqn:Ep.
    + destruct (decide (m = "")) as [->|Hm].
      * split; [done|]. intros n. rewrite IHget, Hfilter.
        destruct (decide (Some "" = Some n)) as [[= <-]|Hn];
          [|by rewrite app_nil_r].
        rewrite !decide_False; [done | tauto | tauto].
      * split.
        -- rewrite keys_mapSet. case_decide as Hin; [done|].
           apply NoDup_app. split; [done|]. split; [|apply NoDup_singleton].
           intros k Hk ->%list_elem_of_singleton. done.
        -- intros n. rewrite mapGet_mapSet, Hfilter.
           destruct (decide (m = n)) as [<-|Hn].
           ++ rewrite (decide_True (P := Some m = Some m)) by done.
              rewrite IHget.
              rewrite (decide_True (P := m <> "" /\ _ ++ [p] <> []));
                [|split; [done | by destruct (filter _ ps)]].
              cbn. f_equal. case_decide as Hc; [done|].
              destruct (filter (fun q => provNameOf q = Some m) ps); [done|].
              exfalso. apply Hc. by split.
           ++ rewrite (decide_False (P := Some m = Some n)) by congruence.
              by rewrite app_nil_r, IHget.
    + split; [done|]. intros n. rewrite IHget, Hfilter.
      rewrite (decide_False (P := None = Some n)) by done.
      by rewrite app_nil_r.
Qed.

(** X9.  The groups of [profilesByProvince] have distinct keys, none of
    them the empty name; the group of a name is never empty and holds
    exactly the profiles of that province, in the order of the input; and
    every profile with a non-empty province name is in the group of that
    name. *)
Theorem profilesByProvince_groups (profiles : list ProfileWithProvince) :
  NoDup (fst <$> profilesByProvince profiles) /\
  (forall n g,
      (n, g) ∈ profilesByProvince profiles ->
      n <> "" /\ g <> [] /\
      g = filter (fun p => provNameOf p = Some n) profiles) /\
  (forall p n,
      p ∈ profiles -> provNameOf p = Some n -> n <> "" ->
      exists g, (n, g) ∈ profilesByProvince profiles /\ p ∈ g).
Proof.
  destruct (profilesByProvince_spec profiles) as [Hnd Hget].
  split; [exact Hnd|]. split.
  - intros n g Hin. apply (mapGet_elem_of _ _ _ Hnd) in Hin.
    rewrite Hget in Hin. case_decide as Hc; [|done].
    injection Hin as <-. by destruct Hc.
  - intros p n Hp Hn Hne.
    exists (filter (fun p => provNameOf p = Some n) profiles).
    assert (Hin : p ∈ filter (fun p => provNameOf p = Some n) profiles)
      by (by apply list_elem_of_filter).
    split; [|exact Hin].
    apply (mapGet_elem_of _ _ _ Hnd). rewrite Hget, decide_True; [done|].
    split; [done|]. intros E. rewrite E in Hin. by apply elem_of_nil in Hin.
Qed.

Lemma profilesByProvince_groups_witness :
  exists g, ("C", g) ∈ profilesByProvince residentsAC /\ length g = 2.
Proof.
  destruct (profilesByProvince_groups residentsAC) as (_ & _ & H).
  destruct (H (mkProfile "u3" None None (Some (mkProvincia "C"))) "C")
    as (g & Hg & Hin); [| reflexivity | discriminate |].
  - apply list_elem_of_lookup. by exists 2.
  - exists g. split; [exact Hg|].
    destruct (profilesByProvince_groups residentsAC) as (_ & H2 & _).
    destruct (H2 "C" g Hg) as (_ & _ & ->). reflexivity.
Defined.

(** X10.  A province is occupied exactly when its name is not empty and
    some profile carries it: occupancy, which colours the regions, and the
    grouping of the markers never disagree. *)
Theorem occupiedProvinces_spec (profiles : list ProfileWithProvince)
    (n : string) :
  n ∈ occupiedProvinces profiles <->
  n <> "" /\ exists p, p ∈ profiles /\ provNameOf p = Some n.
Proof.
  unfold occupiedProvinces. rewrite elem_of_list_to_set.
  destruct (profilesByProvince_spec profiles) as [_ Hget].
  destruct (decide (n ∈ fst <$> profilesByProvince profiles)) as [Hin|Hin].
  - split; [intros _|done].
    destruct (mapGet n (profilesByProvince profiles)) as [g|] eqn:E;
      [|by apply mapGet_None_keys in E].
    rewrite Hget in E. case_decide as Hc; [|done]. destruct Hc as [Hn Hne].
    split; [done|].
    destruct (filter (fun p => provNameOf p = Some n) profiles) as [|p l] eqn:Ef;
      [done|].
    exists p. assert (Hp : p ∈ p :: l) by apply list_elem_of_here.
    rewrite <- Ef in Hp. apply list_elem_of_filter in Hp. tauto.
  - split; [done|]. intros (Hn & p & Hp & Hpn). exfalso.
    apply mapGet_None_keys in Hin. rewrite Hget, decide_True in Hin; [done|].
    split; [done|]. intros E.
    assert (Hin' : p ∈ filter (fun p => provNameOf p = Some n) profiles)
      by (by apply list_elem_of_filter).
    rewrite E in Hin'. by apply elem_of_nil in Hin'.
Qed.

(** X11.  The profiles listed in the tooltip are exactly the profiles of
    the hovered province, in the order of the input; no region hovered, or a
    hovered region with the empty name, lists none. *)
Theorem hoveredProfiles_spec (profiles : list ProfileWithProvince)
    (h : option HoveredFeature) :
  hoveredProfiles profiles h
  = match h with
    | Some hv =>
        if decide (province hv = "") then []
        else filter (fun p => provNameOf p = Some (province hv)) profiles
    | None => []
    end.
Proof.
  destruct h as [hv|]; [|done]. unfold hoveredProfiles.
  destruct (profilesByProvince_spec profiles) as [_ Hget]. rewrite Hget.
  destruct (decide (province hv = "")) as [E|E].
  - rewrite decide_False; [done | tauto].
  - case_decide as Hc; [done|]. cbn.
    destruct (filter _ profiles); [done|]. exfalso. apply Hc. by split.
Qed.

Lemma NoDup_fmap_filter_perm {A B : Type} (f : A -> B) (l k : list A)
    (P : A -> Prop) `{!forall x, Decision (P x)} :
  NoDup (f <$> l) -> k ≡ₚ filter P l -> NoDup (f <$> k).
Proof.
  intros Hnd ->. eapply sublist_NoDup; [exact Hnd|].
  apply fmap_sublist, sublist_filter.
Qed.

(** X12.  There are as many markers as placed profiles, and when the
    profiles have distinct ids the markers have distinct keys. *)
Theorem avatarMarkers_keys (Math_cos Math_sin : number -> number)
    (profiles : list ProfileWithProvince)
    (centroids : gmap string LatLng) :
  length (avatarMarkers Math_cos Math_sin (profilesByProvince profiles)
            centroids)
  = length (filter (fun p => placed centroids p) profiles) /\
  (NoDup (id <$> profiles) ->
   NoDup (key <$> avatarMarkers Math_cos Math_sin
                    (profilesByProvince profiles) centroids)).
Proof.
  assert (Hperm :
    profile <$> avatarMarkers Math_cos Math_sin (profilesByProvince profiles)
                  centroids
    ≡ₚ filter (fun p => placed centroids p) profiles)
    by (rewrite avatarMarkers_profile; apply placedGroups_profilesByProvince).
  split.
  - rewrite <- Hperm. by rewrite length_fmap.
  - intros Hnd. rewrite avatarMarkers_key.
    by apply (NoDup_fmap_filter_perm id profiles _
                (fun p => placed centroids p)).
Qed.

Lemma avatarMarkers_keys_witness :
  NoDup (key <$> avatarMarkers seriesCos seriesSin
                   (profilesByProvince residentsAC)
                   (provinceCentroids bboxBounds
                      (Some {| features := regionsABCD |}))).
Proof.
  destruct (avatarMarkers_keys seriesCos seriesSin residentsAC
              (provinceCentroids bboxBounds
                 (Some {| features := regionsABCD |}))) as [_ H].
  apply H. apply (bool_decide_unpack _). vm_compute. exact I.
Defined.

Lemma occupiedProvinces_spec_witness :
  "C" ∈ occupiedProvinces residentsAC.
Proof.
  apply (occupiedProvinces_spec residentsAC "C"). split; [discriminate|].
  exists (mkProfile "u1" None None (Some (mkProvincia "C"))).
  split; [apply list_elem_of_here | reflexivity].
Defined.

(** ** The centroid map and the order of the regions *)

(** What is above a number is not below what that number is not below. *)
Lemma ltb_above (e g h : number) :
  (e <? g)%num = true -> (e <? h)%num = false -> (g <? h)%num = false.
Proof.
  unfold SFltb.
  destruct e as [[]|[]| |[] me ee], g as [[]|[]| |[] mg eg],
           h as [[]|[]| |[] mh eh]; cbn; try done;
    intros H1 H2; compare_cases; cbn in *; try done; try lia.
Qed.

(** After the loop no region of a name has a score above the score of the
    region whose measure the name has. *)
Lemma centroid_fold_max (getBounds : Feature -> LatLngBounds)
    (fs : list Feature) (n : string) :
  match foldl (centroidStep getBounds) ∅ fs !! n with
  | None => forall f, f ∈ fs -> getProvinceName f <> n
  | Some (c, s) =>
      exists f, f ∈ fs /\ getProvinceName f = n /\
        c = featureCentroid getBounds f /\
        s = featureAreaScore getBounds f /\
        forall g, g ∈ fs -> getProvinceName g = n ->
          (featureAreaScore getBounds g >? featureAreaScore getBounds f)%num
          = false
  end.
Proof.
  induction fs as [|f fs IH] using rev_ind.
  - cbn. rewrite lookup_empty. intros f Hf. by apply elem_of_nil in Hf.
  - rewrite foldl_snoc. set (m := foldl (centroidStep getBounds) ∅ fs) in *.
    destruct (decide (getProvinceName f = n)) as [Hn|Hn].
    + unfold centroidStep. cbv zeta. rewrite Hn.
      destruct (m !! n) as [[c s]|] eqn:Em.
      * destruct IH as (f' & Hf' & Hn' & -> & -> & Hmax). cbn [snd].
        destruct (featureAreaScore getBounds f
                  >? featureAreaScore getBounds f')%num eqn:Hlt.
        -- rewrite lookup_insert_eq. exists f.
           split; [apply elem_of_app; right; apply list_elem_of_here|].
           repeat split; try done.
           intros g [Hg|Hg]%elem_of_app Hgn.
           ++ apply (ltb_above (featureAreaScore getBounds f')); [done|].
              by apply Hmax.
           ++ apply list_elem_of_singleton in Hg as ->. apply ltb_irrefl.
        -- rewrite Em. exists f'.
           split; [apply elem_of_app; by left|]. repeat split; try done.
           intros g [Hg|Hg]%elem_of_app Hgn; [by apply Hmax|].
           by apply list_elem_of_singleton in Hg as ->.
      * rewrite lookup_insert_eq. exists f.
        split; [apply elem_of_app; right; apply list_elem_of_here|].
        repeat split; try done.
        intros g [Hg|Hg]%elem_of_app Hgn; [by destruct (IH g Hg)|].
        apply list_elem_of_singleton in Hg as ->. apply ltb_irrefl.
    + rewrite centroidStep_other by done.
      destruct (m !! n) as [[c s]|].
      * destruct IH as (f' & Hf' & Hn' & -> & -> & Hmax). exists f'.
        split; [apply elem_of_app; by left|]. repeat split; try done.
        intros g [Hg|Hg]%elem_of_app Hgn; [by apply Hmax|].
        apply list_elem_of_singleton in Hg as ->. done.
      * intros g [Hg|Hg]%elem_of_app; [by apply IH|].
        by apply list_elem_of_singleton in Hg as ->.
Qed.

(** X13.  The centroid map does not depend on the order of the regions,
    as long as two regions of one name neither of which has the score above
    the other's have the same centre: only such a tie, of scores as the code
    computes and compares them, lets the order decide. *)
Theorem provinceCentroids_order_independent
    (getBounds : Feature -> LatLngBounds) (fs fs' : list Feature) :
  fs ≡ₚ fs' ->
  (forall f g, f ∈ fs -> g ∈ fs ->
     getProvinceName f = getProvinceName g ->
     (featureAreaScore getBounds f >? featureAreaScore getBounds g)%num = false ->
     (featureAreaScore getBounds g >? featureAreaScore getBounds f)%num = false ->
     featureCentroid getBounds f = featureCentroid getBounds g) ->
  provinceCentroids getBounds (Some {| features := fs |})
  = provinceCentroids getBounds (Some {| features := fs' |}).
Proof.
  intros Hperm Htie. unfold provinceCentroids. cbn [features].
  apply map_eq. intros n. rewrite !lookup_fmap.
  assert (H := centroid_fold_max getBounds fs n).
  assert (H' := centroid_fold_max getBounds fs' n).
  destruct (foldl (centroidStep getBounds) ∅ fs !! n) as [[c s]|],
           (foldl (centroidStep getBounds) ∅ fs' !! n) as [[c' s']|]; cbn.
  - destruct H as (f & Hf & Hn & -> & _ & Hmax).
    destruct H' as (f' & Hf' & Hn' & -> & _ & Hmax').
    f_equal. rewrite <- Hperm in Hf'. apply Htie; try done; [congruence| |].
    + apply Hmax'; [by rewrite <- Hperm | done].
    + by apply Hmax.
  - destruct H as (f & Hf & Hn & _). rewrite Hperm in Hf. by destruct (H' f Hf).
  - destruct H' as (f & Hf & Hn & _). rewrite <- Hperm in Hf.
    by destruct (H f Hf).
  - done.
Qed.

Lemma provinceCentroids_order_independent_witness :
  provinceCentroids bboxBounds
    (Some {| features := [smallX; tieFirst; largeX] |})
  = provinceCentroids bboxBounds
      (Some {| features := [largeX; smallX; tieFirst] |}).
Proof.
  apply provinceCentroids_order_independent.
  - apply (Permutation_app_comm [smallX; tieFirst] [largeX]).
  - intros f g Hf Hg Hname H1 H2.
    repeat (apply elem_of_cons in Hf as [->|Hf]);
      try (by apply elem_of_nil in Hf);
      repeat (apply elem_of_cons in Hg as [->|Hg]);
      try (by apply elem_of_nil in Hg);
      first [ vm_compute in Hname; discriminate Hname
            | vm_compute in H1; discriminate H1
            | vm_compute in H2; discriminate H2
            | reflexivity ].
Defined.

(** ** Hovering *)

(** X16.  Whatever the events and their order, at most one layer shows
    the hover style, and it is the layer the ref holds, a layer of the map
    which is not a region of the selected province. *)
Theorem at_most_one_layer_hovered
    (geoFeatures : list Feature) (occupied : gset string) (app0 : AppState)
    (events : list LayerEvent) (i j : nat) :
  let st := mapState (run geoFeatures occupied app0 events) in
  layerStyle st !! i = Some HOVER_STYLE ->
  layerStyle st !! j = Some HOVER_STYLE ->
  i = j /\
  exists f,
    geoFeatures !! i = Some f /\
    prevHoveredRef st = Some ((generation st, i), getProvinceName f) /\
    Some (getProvinceName f) <> myProvince app0.
Proof.
  intros st Hi Hj.
  destruct (hover_is_ref _ _ _ _ _ Hi) as (f & Hf & Hsel & Href).
  destruct (hover_is_ref _ _ _ _ _ Hj) as (g & Hg & _ & Href').
  rewrite Href in Href'. injection Href' as -> _.
  split; [done|]. by exists f.
Qed.

Lemma at_most_one_layer_hovered_witness :
  exists f,
    regionsABCD !! 2 = Some f /\
    prevHoveredRef (mapState (run regionsABCD ∅ userInA
                           [mouseover 1; click 1; mouseover 2]))
    = Some ((1, 2), getProvinceName f).
Proof.
  destruct (at_most_one_layer_hovered regionsABCD ∅ userInA
              [mouseover 1; click 1; mouseover 2] 2 2)
    as (_ & f & Hf & Href & _);
    [vm_compute; reflexivity | vm_compute; reflexivity |].
  exists f. split; [exact Hf | exact Href].
Defined.

(** X17.  Whenever a region is recorded as hovered, so that the tooltip
    is shown, it is the region of the layer the ref holds and the tooltip
    carries that region's label and province.  While that layer is on the
    map it shows the hover style, unless its province is the selected one;
    once the layers have been put anew, the layer of the region shows the
    style of [styleFeature]. *)
Theorem tooltip_names_hovered_layer
    (geoFeatures : list Feature) (occupied : gset string) (app0 : AppState)
    (events : list LayerEvent) (h : HoveredFeature) :
  let st := mapState (run geoFeatures occupied app0 events) in
  hovered st = Some h ->
  exists g l f,
    geoFeatures !! l = Some f /\
    prevHoveredRef st = Some ((g, l), getProvinceName f) /\
    label h = getFeatureLabel f /\ province h = getProvinceName f /\
    (g = generation st ->
     layerStyle st !! l
     = Some (if decide (Some (province h) = myProvince app0)
             then SELECTED_STYLE else HOVER_STYLE)) /\
    (g <> generation st ->
     layerStyle st !! l
     = Some (styleFeature (myProvince app0) occupied (Some f))).
Proof.
  intros st Hh. subst st.
  destruct (run_invariant geoFeatures occupied app0 events)
    as (_ & (_ & _ & Hsty) & Hhov).
  destruct (Hhov h Hh) as ([g l] & f & Href & Hf & ->). cbn [snd] in Hf.
  exists g, l, f. split; [done|]. split; [done|]. split; [done|].
  split; [done|]. cbn [province].
  rewrite (Hsty l f Hf). unfold layerPriority. rewrite Href.
  cbn [fmap option_fmap option_map fst]. split.
  - intros ->. case_decide; [done|]. by rewrite decide_True.
  - intros Hg. rewrite styleFeature_priority. case_decide; [done|].
    rewrite decide_False; [done|]. intros [= ?]. done.
Qed.

Lemma tooltip_names_hovered_layer_witness :
  let st := mapState (run balearicRegions ∅ userInA
                   [mouseover 0; mouseover 2; click 2]) in
  generation st = 1 /\
  exists g l f,
    balearicRegions !! l = Some f /\
    prevHoveredRef st = Some ((g, l), getProvinceName f) /\
    getFeatureLabel f = "Ibiza".
Proof.
  intros st. split; [vm_compute; reflexivity|].
  destruct (tooltip_names_hovered_layer balearicRegions ∅ userInA
              [mouseover 0; mouseover 2; click 2]
              {| label := "Ibiza"; province := "Illes Balears" |})
    as (g & l & f & Hf & Href & Hlabel & _);
    [vm_compute; reflexivity|].
  exists g, l, f. split; [exact Hf|]. split; [exact Href|].
  by rewrite <- Hlabel.
Defined.

(** X18.  Entering a layer and leaving it again undoes the hover: after
    any events, a [mouseover] of a layer followed by its [mouseout] leaves
    every layer with the style it had when first drawn, the ref empty and no
    region hovered. *)
Theorem hover_then_leave_restores
    (geoFeatures : list Feature) (occupied : gset string) (app0 : AppState)
    (events : list LayerEvent) (i : nat) (f : Feature) :
  geoFeatures !! i = Some f ->
  let st := mapState (run geoFeatures occupied app0
                   (events ++ [mouseover i; mouseout i])) in
  layerStyle st
  = (fun g => styleFeature (myProvince app0) occupied (Some g))
      <$> geoFeatures /\
  prevHoveredRef st = None /\
  hovered st = None.
Proof.
  intros Hi st.
  destruct (run_invariant geoFeatures occupied app0
              (events ++ [mouseover i; mouseout i])) as (_ & Hres & _).
  fold st in Hres.
  assert (Hst : prevHoveredRef st = None /\ hovered st = None).
  { unfold st.
    replace (events ++ [mouseover i; mouseout i])
      with ((events ++ [mouseover i]) ++ [mouseout i])
      by (by rewrite <- app_assoc).
    rewrite !run_snoc. cbn [handle]. rewrite Hi. cbn [mapState appState].
    unfold onMouseout, onMouseover. cbn [prevHoveredRef generation hovered].
    by rewrite decide_True. }
  destruct Hst as [Href Hhov]. split; [|done].
  apply unhovered_styles; [done|]. intros l pn. by rewrite Href.
Qed.

Lemma hover_then_leave_restores_witness :
  layerStyle (mapState (run regionsABCD (occupiedProvinces residentsAC) userInA
                     [mouseover 3; click 3; mouseover 2; mouseover 1;
                      mouseout 1]))
  = [SELECTED_STYLE; DEFAULT_STYLE; OCCUPIED_STYLE; DEFAULT_STYLE].
Proof.
  destruct (hover_then_leave_restores regionsABCD
              (occupiedProvinces residentsAC) userInA
              [mouseover 3; click 3; mouseover 2]
              1 (named "B" (rectangle (double 0) (double 1) (double 1) (double 2)))
              eq_refl) as [H _].
  change ([mouseover 3; click 3; mouseover 2] ++ [mouseover 1; mouseout 1])
    with [mouseover 3; click 3; mouseover 2; mouseover 1; mouseout 1] in H.
  rewrite H. vm_compute. reflexivity.
Defined.

(** X19.  A click on a region asks for confirmation only when there is a
    session and the region is not drawn as selected: without a session, or
    on a region that shows the selected style, the dialog and the pending
    province stay as they were; otherwise the dialog opens with the region's
    province name pending, for an island the name of its whole province.
    This holds of the state of [App] the run has reached, and of any state
    with the same province. *)
Theorem click_opens_dialog
    (geoFeatures : list Feature) (occupied : gset string)
    (app0 : AppState) (events : list LayerEvent) (a : AppState)
    (i : nat) (f : Feature) :
  geoFeatures !! i = Some f ->
  myProvince a = myProvince app0 ->
  let pg := run geoFeatures occupied app0 events in
  (session a = None ->
   confirmOpen (onClick geoFeatures i a) = confirmOpen a /\
   pendingProvince (onClick geoFeatures i a) = pendingProvince a) /\
  (layerStyle (mapState pg) !! i = Some SELECTED_STYLE ->
   confirmOpen (onClick geoFeatures i a) = confirmOpen a /\
   pendingProvince (onClick geoFeatures i a) = pendingProvince a) /\
  (session a <> None ->
   layerStyle (mapState pg) !! i <> Some SELECTED_STYLE ->
   confirmOpen (onClick geoFeatures i a) = true /\
   pendingProvince (onClick geoFeatures i a) = Some (getProvinceName f) /\
   toasts (onClick geoFeatures i a) = toasts a) /\
  myProvince (appState pg) = myProvince app0 /\
  appState (run geoFeatures occupied app0 (events ++ [click i]))
  = onClick geoFeatures i (appState pg).
Proof.
  intros Hi Ha pg.
  destruct (run_invariant geoFeatures occupied app0 events)
    as (Hsel & (_ & _ & Hsty) & _).
  fold pg in Hsel, Hsty.
  destruct (HOVER_STYLE_distinct (getProvinceName f) occupied) as [H1 H2].
  split; [|split; [|split; [|split]]].
  - unfold onClick, handleProvinceSelect. rewrite Hi. by intros ->.
  - rewrite (Hsty i f Hi).
    unfold layerPriority, onClick, handleProvinceSelect. rewrite Hi, Ha.
    intros [= Hstyle]. destruct (session a); [|done].
    case_decide as Hs; [done|]. exfalso.
    case_decide; [by apply H1 | ].
    revert Hstyle. unfold restStyle. by case_decide.
  - rewrite (Hsty i f Hi).
    unfold layerPriority, onClick, handleProvinceSelect. rewrite Hi, Ha.
    intros Hs Hstyle. destruct (session a); [|done].
    case_decide as Hs'; [|done]. exfalso. by apply Hstyle.
  - exact Hsel.
  - unfold pg. by rewrite run_snoc.
Qed.

Lemma click_opens_dialog_witness :
  pendingProvince
    (onClick balearicRegions 1
       {| session := Some "u1"; myProvince := Some "A";
          pendingProvince := None; confirmOpen := false; toasts := [] |})
  = Some "Illes Balears".
Proof.
  destruct (click_opens_dialog balearicRegions ∅ userInA [mouseover 1]
              {| session := Some "u1"; myProvince := Some "A";
                 pendingProvince := None; confirmOpen := false; toasts := [] |}
              1 (default balearicSample (balearicRegions !! 1)))
    as (_ & _ & H & _); [vm_compute; reflexivity | reflexivity |].
  destruct H as (_ & Hp & _); [discriminate | vm_compute; discriminate |].
  rewrite Hp. vm_compute. reflexivity.
Defined.
